(** * Product-URL crawler (crawler.js): a shallow embedding and its properties

    The development follows the layout of [crawler.js]:

    - strings and the [String.prototype.includes] / [RegExp.prototype.test]
      primitives the crawler uses;
    - the platform's [URL] class, taken as a parameter of the crawler and
      instantiated by a small model of the WHATWG resolver
      ([NodeURL.new_URL]);
    - [isValidUrl], [isProductUrl];
    - [crawlUrl] (guard, visited set, retry loop, link scan, recursion)
      and [crawlDomain], as functions of the state of one domain crawl;
    - the same two as coroutines that suspend at their awaits, the event
      loop that resumes them, [Promise.all] and [crawlDomains];
    - the properties of the specification, one theorem each. *)

From Stdlib Require Import String Ascii List Arith Lia Bool.
From stdpp Require Import base strings gmap list.
Import ListNotations.
#[local] Set Warnings "-clear-no-such-hyp".
Local Open Scope string_scope.
Local Open Scope list_scope.

(* ===================================================================== *)
(** ** Strings *)
(* ===================================================================== *)

Module Str.

(** [s.includes(sub)]: [sub] occurs somewhere in [s]. *)
Fixpoint includes (s sub : string) : bool :=
  String.prefix sub s ||
  match s with
  | EmptyString => false
  | String _ s' => includes s' sub
  end.

(** [s.startsWith(p)] returning the remainder. *)
Fixpoint strip_prefix (p s : string) : option string :=
  match p, s with
  | EmptyString, _ => Some s
  | String a p', String b s' => if Ascii.eqb a b then strip_prefix p' s' else None
  | String _ _, EmptyString => None
  end.

(** Split [s] before the first character satisfying [stop]. *)
Fixpoint break (stop : ascii -> bool) (s : string) : string * string :=
  match s with
  | EmptyString => (EmptyString, EmptyString)
  | String c s' =>
      if stop c then (EmptyString, s)
      else let (a, b) := break stop s' in (String c a, b)
  end.

(** The prefix of [s] up to and including its last ["/"] (the directory
    part of a path). *)
Fixpoint dirname (s : string) : string :=
  match s with
  | EmptyString => EmptyString
  | String c s' =>
      if includes s' "/" then String c (dirname s')
      else if Ascii.eqb c "/" then "/" else EmptyString
  end.

Definition is_empty (s : string) : bool :=
  match s with EmptyString => true | _ => false end.

(** The characters of a string. *)
Fixpoint has_char (c : ascii) (s : string) : Prop :=
  match s with
  | EmptyString => False
  | String d s' => c = d \/ has_char c s'
  end.

End Str.

(** A regular expression literal without metacharacters, as the three
    patterns of [PRODUCT_PATTERNS] are once [\/] is read as ["/"]: it is
    kept as the text it matches.  The literals carry no [g] or [y] flag, so
    [test] keeps no [lastIndex] between calls. *)
Definition RegExp := string.

Definition RegExp_test (pattern : RegExp) (s : string) : bool :=
  Str.includes s pattern.

(* ===================================================================== *)
(** ** The platform's URL class *)
(* ===================================================================== *)

(** The properties of a parsed [URL] object the crawler (and the
    specification) read, and those that make up [href]. *)
Record URL := mkURL {
  href : string;
  protocol : string;
  host : string;
  hostname : string;
  pathname : string;
  search : string;
  hash : string
}.

(** [new URL(input, base)]: [None] stands for the [TypeError] thrown on an
    input or a base that does not parse. *)
Definition URLParser := string -> string -> option URL.

Module NodeURL.

(** A model of the WHATWG resolver on the URLs a shop's pages hold:
    [http:]/[https:] URLs [scheme://host[:port][/path][?query][#fragment]]
    written in lower case, without user information, IPv6 literals, default
    ports, dot segments, blanks, backslashes or characters that need
    percent-encoding, and references relative to such a base.  Links in
    other schemes ([mailto:], [tel:], [javascript:]) are taken without
    authority and parse to a URL with an empty host name.  On other inputs
    (upper case, default ports, dot segments, IPv6 literals, a base out of
    a bare scheme) the model is not Node's resolver: what is proved of
    [NodeURL.new_URL] alone is proved of the model, and the properties of
    the crawler either take the resolver as a parameter or use the model
    on inputs of the kind above. *)

Definition is_path_end (c : ascii) : bool :=
  Ascii.eqb c "/" || Ascii.eqb c "?" || Ascii.eqb c "#".

Definition is_query_start (c : ascii) : bool :=
  Ascii.eqb c "?" || Ascii.eqb c "#".

Definition is_hash (c : ascii) : bool := Ascii.eqb c "#".

Definition is_colon (c : ascii) : bool := Ascii.eqb c ":".

Definition is_alpha (c : ascii) : bool :=
  let n := nat_of_ascii c in
  (((97 <=? n) && (n <=? 122)) || ((65 <=? n) && (n <=? 90)))%nat.

Definition special_scheme (s : string) : option (string * string) :=
  match Str.strip_prefix "https://" s with
  | Some rest => Some ("https:", rest)
  | None =>
      match Str.strip_prefix "http://" s with
      | Some rest => Some ("http:", rest)
      | None => None
      end
  end.

(** A scheme other than the two above: letters followed by [":"]. *)
Definition other_scheme (s : string) : option (string * string) :=
  let (name, rest) := Str.break (fun c => negb (is_alpha c)) s in
  match name, rest with
  | String _ _, String ":" rest' => Some (name +:+ ":", rest')
  | _, _ => None
  end.

(** [new URL(input)] on an absolute input. *)
Definition parse_absolute (s : string) : option URL :=
  match special_scheme s with
  | Some (proto, rest) =>
      let (authority, tail) := Str.break is_path_end rest in
      let (name, _) := Str.break is_colon authority in
      let (path, rest') := Str.break is_query_start tail in
      let (query, fragment) := Str.break is_hash rest' in
      let path := if Str.is_empty path then "/" else path in
      if Str.is_empty name then None
      else Some {| href := proto +:+ "//" +:+ authority +:+ path +:+ query +:+ fragment;
                   protocol := proto;
                   host := authority;
                   hostname := name;
                   pathname := path;
                   search := query;
                   hash := fragment |}
  | None =>
      match other_scheme s with
      | Some (proto, rest) =>
          let (path, rest') := Str.break is_query_start rest in
          let (query, fragment) := Str.break is_hash rest' in
          Some {| href := s; protocol := proto; host := "";
                  hostname := ""; pathname := path;
                  search := query; hash := fragment |}
      | None => None
      end
  end.

Definition origin (u : URL) : string := protocol u +:+ "//" +:+ host u.

(** [new URL(input, base)]: the base must parse; an absolute input stands
    for itself; a reference is resolved against the base. *)
Definition new_URL : URLParser := fun input base =>
  match parse_absolute base with
  | None => None
  | Some b =>
      match parse_absolute input with
      | Some u => Some u
      | None =>
          if Str.is_empty (host b) then None
          else
            match input with
            | EmptyString => parse_absolute (origin b +:+ pathname b +:+ search b)
            | String "/" (String "/" _) => parse_absolute (protocol b +:+ input)
            | String "/" _ => parse_absolute (origin b +:+ input)
            | String "?" _ => parse_absolute (origin b +:+ pathname b +:+ input)
            | String "#" _ =>
                parse_absolute (origin b +:+ pathname b +:+ search b +:+ input)
            | _ => parse_absolute (origin b +:+ Str.dirname (pathname b) +:+ input)
            end
      end
  end.

End NodeURL.

(* ===================================================================== *)
(** ** Configuration, platform and helpers of crawler.js *)
(* ===================================================================== *)

(** The constants of the "Configurations" block that steer the traversal.
    ([TIMEOUT] and the request headers only travel to [axios.get].) *)
Class Config := mkConfig {
  MAX_DEPTH : nat;
  RETRY_LIMIT : nat;
  PARALLEL_REQUESTS : nat;
  DELAY_BETWEEN_REQUESTS : nat
}.

Definition defaults : Config :=
  {| MAX_DEPTH := 3; RETRY_LIMIT := 3; PARALLEL_REQUESTS := 5;
     DELAY_BETWEEN_REQUESTS := 1000 |}.

Definition PRODUCT_PATTERNS : list RegExp := ["/product/"; "/item/"; "/p/"].

(** One [await axios.get(url, ...)] followed by [cheerio.load] and the
    selection [$('a[href]')]: either the [href] attributes of the page's
    anchors in document order, or a rejection, [status] being
    [err.response?.status] ([None] for a timeout, a connection error or a
    body that does not load). *)
Inductive Outcome :=
| Resolved (hrefs : list string)
| Rejected (status : option nat).

(** What the crawler runs on: the [URL] constructor, and a server side that
    answers each request from its current state. *)
Class Platform := mkPlatform {
  Net : Type;
  new_URL : URLParser;
  axios_get : string -> Net -> Outcome * Net
}.

(** What the run does to the outside world and to its visited set, in
    order: [visitedUrls.add(url)], an [axios.get(url)] request, and a
    [delay(ms)]. *)
Inductive Event :=
| EvAdd (url : string)
| EvGet (url : string)
| EvDelay (ms : nat).

(** How a JavaScript function body ends: [return a] or an exception, of
    which only [err.response?.status] is ever inspected. *)
Inductive Completion (A : Type) :=
| Return (a : A)
| Throw (status : option nat).
Arguments Return {A} a.
Arguments Throw {A} status.

Record DomainResult := mkDomainResult {
  domain : string;
  productUrls : list string
}.

(** A JavaScript [Set] of strings read back with [Array.from]: insertion
    order, no duplicates. *)
Definition Set_add (x : string) (s : list string) : list string :=
  if bool_decide (x ∈ s) then s else s ++ [x].

(** [domains.slice(b, e)]. *)
Definition slice {A} (b e : nat) (l : list A) : list A := take (e - b) (drop b l).

(** The store of one domain crawl: its [visitedUrls] set, and the world
    (what happened so far, and the servers). *)
Record State {P : Platform} := mkState {
  visitedUrls : gset string;
  trace : list Event;
  net : Net
}.
Arguments State P : clear implicits.

Section Crawler.

Context {cfg : Config} {P : Platform}.

(** [isValidUrl]: the [try] block resolves the link, the [catch] answers
    [false]. *)
Definition isValidUrl (url baseDomain : string) : bool :=
  match new_URL url baseDomain with
  | Some parsedUrl => Str.includes (hostname parsedUrl) baseDomain
  | None => false
  end.

(** [isProductUrl]: [PRODUCT_PATTERNS.some(pattern => pattern.test(url))]. *)
Definition isProductUrl (url : string) : bool :=
  existsb (fun pattern => RegExp_test pattern url) PRODUCT_PATTERNS.

Definition visitedUrls_add (url : string) (w : State P) : State P :=
  {| visitedUrls := {[url]} ∪ visitedUrls w;
     trace := trace w ++ [EvAdd url];
     net := net w |}.

Definition delay (ms : nat) (w : State P) : State P :=
  {| visitedUrls := visitedUrls w;
     trace := trace w ++ [EvDelay ms];
     net := net w |}.

Definition get (url : string) (w : State P) : Outcome * State P :=
  let (o, n) := axios_get url (net w) in
  (o, {| visitedUrls := visitedUrls w;
         trace := trace w ++ [EvGet url];
         net := n |}).

(** The callback of [$('a[href]').each], over the links in order.  [None]
    is an exception leaving the callback (the second [new URL] throwing). *)
Fixpoint each_link (hrefs : list string) (baseDomain : string)
    (visited : gset string) (productUrls internalUrls : list string)
    : option (list string * list string) :=
  match hrefs with
  | [] => Some (productUrls, internalUrls)
  | link :: rest =>
      if isValidUrl link baseDomain then
        match new_URL link baseDomain with
        | None => None
        | Some u =>
            let absoluteUrl := href u in
            if isProductUrl absoluteUrl then
              each_link rest baseDomain visited
                (Set_add absoluteUrl productUrls) internalUrls
            else if negb (bool_decide (absoluteUrl ∈ visited)) then
              each_link rest baseDomain visited
                productUrls (internalUrls ++ [absoluteUrl])
            else each_link rest baseDomain visited productUrls internalUrls
        end
      else each_link rest baseDomain visited productUrls internalUrls
  end.

(** [childProductUrls.forEach((url) => productUrls.add(url))]. *)
Definition add_all (childProductUrls productUrls : list string) : list string :=
  fold_left (fun acc url => Set_add url acc) childProductUrls productUrls.

(** [for (const internalUrl of internalUrls) { ... }] followed by
    [return Array.from(productUrls)]; [crawl] is the recursive call at
    [depth + 1]. *)
Fixpoint for_internalUrls
    (crawl : string -> State P -> option (Completion (list string) * State P))
    (internalUrls productUrls : list string) (w : State P)
    : option (Completion (list string) * State P) :=
  match internalUrls with
  | [] => Some (Return productUrls, w)
  | internalUrl :: rest =>
      match crawl internalUrl (delay DELAY_BETWEEN_REQUESTS w) with
      | None => None
      | Some (Throw e, w') => Some (Throw e, w')
      | Some (Return childProductUrls, w') =>
          for_internalUrls crawl rest (add_all childProductUrls productUrls) w'
      end
  end.

(** The body of the [try] block. *)
Definition try_block
    (crawl : string -> State P -> option (Completion (list string) * State P))
    (url baseDomain : string) (w : State P)
    : option (Completion (list string) * State P) :=
  match get url w with
  | (Rejected status, w1) => Some (Throw status, w1)
  | (Resolved hrefs, w1) =>
      match each_link hrefs baseDomain (visitedUrls w1) [] [] with
      | None => Some (Throw None, w1)
      | Some (productUrls, internalUrls) =>
          for_internalUrls crawl internalUrls productUrls w1
      end
  end.

(** [err.response?.status === 429]. *)
Definition is_429 (status : option nat) : bool :=
  match status with Some 429 => true | _ => false end.

(** [crawlUrl] and its [while (attempts < RETRY_LIMIT)] loop.  Recursion
    is general in the source; here every call and every loop iteration
    spends one unit of [fuel], and [None] means the fuel ran out. *)
Fixpoint crawlUrl (fuel : nat) (url baseDomain : string) (depth : nat)
    (w : State P) {struct fuel} : option (Completion (list string) * State P) :=
  match fuel with
  | 0 => None
  | S fuel =>
      if (MAX_DEPTH <? depth)%nat || bool_decide (url ∈ visitedUrls w)
      then Some (Return [], w)
      else while_attempts fuel url baseDomain depth 0 (visitedUrls_add url w)
  end
with while_attempts (fuel : nat) (url baseDomain : string) (depth : nat)
    (attempts : nat) (w : State P) {struct fuel}
    : option (Completion (list string) * State P) :=
  match fuel with
  | 0 => None
  | S fuel =>
      if (attempts <? RETRY_LIMIT)%nat then
        match try_block (fun u => crawlUrl fuel u baseDomain (depth + 1))
                        url baseDomain w with
        | None => None
        | Some (Return r, w') => Some (Return r, w')
        | Some (Throw status, w') =>
            if is_429 status
            then while_attempts fuel url baseDomain depth (attempts + 1)
                   (delay 3000 w')
            else Some (Return [], w')
        end
      else Some (Return [], w)
  end.

(** [crawlDomain]: a fresh visited set, the root at depth 0. *)
Definition new_Set (w : State P) : State P :=
  {| visitedUrls := ∅; trace := trace w; net := net w |}.

Definition crawlDomain (fuel : nat) (domain : string) (w : State P)
    : option (Completion DomainResult * State P) :=
  match crawlUrl fuel domain domain 0 (new_Set w) with
  | None => None
  | Some (Throw e, w') => Some (Throw e, w')
  | Some (Return productUrls, w') =>
      Some (Return {| domain := domain; productUrls := productUrls |}, w')
  end.

End Crawler.

(* ===================================================================== *)
(** ** The async functions as coroutines, and the event loop *)
(* ===================================================================== *)

(** The body of an [async] function from some point on.  It settles its
    promise ([Done]); or it performs [visitedUrls.add(url)] and goes on;
    or it calls [axios.get(url)] or [delay(ms)] and awaits the promise,
    which suspends it until the event loop hands it the outcome.  Awaiting
    the promise of a nested [crawlUrl] call lets no other task in: the
    caller goes on in the turn in which the callee settles.  [NoFuel] is
    the fuel running out. *)
Inductive Async (A : Type) : Type :=
| Done (c : Completion A)
| NoFuel
| AddThen (url : string) (k : Async A)
| AwaitGet (url : string) (k : Outcome -> Async A)
| AwaitDelay (ms : nat) (k : Async A).
Arguments Done {A} c.
Arguments NoFuel {A}.
Arguments AddThen {A} url k.
Arguments AwaitGet {A} url k.
Arguments AwaitDelay {A} ms k.

(** What follows a call of [crawlUrl]: it is given how the call completed
    and the visited set as the call left it. *)
Definition Cont (A : Type) : Type :=
  Completion (list string) -> gset string -> Async A.

(** The promise of a task: pending, with what the task does when it is
    resumed; settled; or out of fuel. *)
Inductive Task (A : Type) : Type :=
| Pending (k : Async A)
| Settled (c : Completion A)
| Starved.
Arguments Pending {A} k.
Arguments Settled {A} c.
Arguments Starved {A}.

(** What [crawlDomains] sees of its tasks: [crawlDomain(domain)] is called
    (it logs the domain), and the promise it returned settles. *)
Inductive Moment :=
| Started (domain : string)
| Ended (domain : string).

(** The tasks of a batch, in task order, each with its domain. *)
Definition Pool : Type := list (string * Task DomainResult).

Section EventLoop.

Context {cfg : Config} {P : Platform}.

(** The [for] loop over [internalUrls], as [for_internalUrls]. *)
Fixpoint for_async {A : Type}
    (crawl : string -> gset string -> Cont A -> Async A)
    (internalUrls productUrls : list string) (visited : gset string)
    (k : Cont A) : Async A :=
  match internalUrls with
  | [] => k (Return productUrls) visited
  | internalUrl :: rest =>
      AwaitDelay DELAY_BETWEEN_REQUESTS
        (crawl internalUrl visited (fun c visited' =>
           match c with
           | Throw e => k (Throw e) visited'
           | Return childProductUrls =>
               for_async crawl rest (add_all childProductUrls productUrls)
                 visited' k
           end))
  end.

(** [crawlUrl] and its retry loop, as [crawlUrl] and [while_attempts], with
    the awaits left in: [visited] is the set [visitedUrls] at this point,
    [k] what the caller does with the result.  Resumed at each await with
    no other task in between, it is [crawlUrl] ([complete_both]). *)
Fixpoint crawlUrl_async {A : Type} (fuel : nat) (url baseDomain : string)
    (depth : nat) (visited : gset string) (k : Cont A) {struct fuel} : Async A :=
  match fuel with
  | 0 => NoFuel
  | S fuel =>
      if (MAX_DEPTH <? depth)%nat || bool_decide (url ∈ visited)
      then k (Return []) visited
      else AddThen url
             (while_async fuel url baseDomain depth 0 ({[url]} ∪ visited) k)
  end
with while_async {A : Type} (fuel : nat) (url baseDomain : string)
    (depth : nat) (attempts : nat) (visited : gset string) (k : Cont A)
    {struct fuel} : Async A :=
  match fuel with
  | 0 => NoFuel
  | S fuel =>
      if (attempts <? RETRY_LIMIT)%nat then
        let catch := fun (status : option nat) (visited' : gset string) =>
          if is_429 status
          then AwaitDelay 3000
                 (while_async fuel url baseDomain depth (attempts + 1) visited' k)
          else k (Return []) visited' in
        AwaitGet url (fun o =>
          match o with
          | Rejected status => catch status visited
          | Resolved hrefs =>
              match each_link hrefs baseDomain visited [] [] with
              | None => catch None visited
              | Some (productUrls, internalUrls) =>
                  for_async
                    (fun u => crawlUrl_async fuel u baseDomain (depth + 1))
                    internalUrls productUrls visited
                    (fun c visited' =>
                       match c with
                       | Return r => k (Return r) visited'
                       | Throw status => catch status visited'
                       end)
              end
          end)
      else k (Return []) visited
  end.

(** [crawlDomain], as the task that [crawlDomains] starts. *)
Definition crawlDomain_async (fuel : nat) (domain : string) : Async DomainResult :=
  crawlUrl_async fuel domain domain 0 ∅ (fun c _ =>
    match c with
    | Return productUrls =>
        Done (Return {| domain := domain; productUrls := productUrls |})
    | Throw e => Done (Throw e)
    end).

(** An event of some task's visited set, seen from the world. *)
Definition record (e : Event) (w : State P) : State P :=
  {| visitedUrls := visitedUrls w; trace := trace w ++ [e]; net := net w |}.

(** One turn of a task: its code up to the next await on a request or on a
    timer.  The request is made, and answered from the state of the
    servers, when [axios.get] is called; the answer is handed to the task
    when it is resumed. *)
Fixpoint advance {A : Type} (k : Async A) (w : State P) : Task A * State P :=
  match k with
  | Done c => (Settled c, w)
  | NoFuel => (Starved, w)
  | AddThen url k => advance k (record (EvAdd url) w)
  | AwaitGet url k => let (o, w1) := get url w in (Pending (k o), w1)
  | AwaitDelay ms k => (Pending k, delay ms w)
  end.

(** A task resumed at each of its awaits with no other task in between. *)
Fixpoint complete {A : Type} (k : Async A) (w : State P)
    : option (Completion A * State P) :=
  match k with
  | Done c => Some (c, w)
  | NoFuel => None
  | AddThen url k => complete k (record (EvAdd url) w)
  | AwaitGet url k => let (o, w1) := get url w in complete (k o) w1
  | AwaitDelay ms k => complete k (delay ms w)
  end.

Definition ended (domain : string) (t : Task DomainResult) : list Moment :=
  match t with
  | Settled _ => [Ended domain]
  | _ => []
  end.

(** [domains.slice(...).map(crawlDomain)]: [crawlDomain] is called on the
    domains in order, and each call runs to its first await before the
    next is made. *)
Fixpoint start_all (fuel : nat) (batch : list string) (w : State P)
    : Pool * State P * list Moment :=
  match batch with
  | [] => ([], w, [])
  | d :: rest =>
      let (t, w1) := advance (crawlDomain_async fuel d) w in
      let '(pool, w2, ms) := start_all fuel rest w1 in
      ((d, t) :: pool, w2, Started d :: ms)
  end.

(** The tasks that have settled by the time the calls of [map] are over. *)
Fixpoint ended_at_start (pool : Pool) : list Moment :=
  match pool with
  | [] => []
  | (d, t) :: rest => ended d t ++ ended_at_start rest
  end.

(** The state of the promise of [Promise.all(tasks)]: rejected as soon as
    a task has thrown, fulfilled with the results in task order once all
    tasks have returned, pending otherwise. *)
Fixpoint rejection (pool : Pool) : option (option nat) :=
  match pool with
  | [] => None
  | (_, Settled (Throw e)) :: _ => Some e
  | _ :: rest => rejection rest
  end.

Fixpoint fulfilled (pool : Pool) : option (list DomainResult) :=
  match pool with
  | [] => Some []
  | (_, Settled (Return r)) :: rest =>
      match fulfilled rest with
      | Some rs => Some (r :: rs)
      | None => None
      end
  | _ :: _ => None
  end.

Definition Promise_state (pool : Pool) : option (Completion (list DomainResult)) :=
  match rejection pool with
  | Some e => Some (Throw e)
  | None =>
      match fulfilled pool with
      | Some rs => Some (Return rs)
      | None => None
      end
  end.

(** The event loop resumes the task at index [i] of the pool, if it is
    pending. *)
Definition resume (i : nat) (pool : Pool) (w : State P)
    : Pool * State P * list Moment :=
  match pool !! i with
  | Some (d, Pending k) =>
      let (t, w') := advance k w in (<[i := (d, t)]> pool, w', ended d t)
  | _ => (pool, w, [])
  end.

(** The pending tasks completed one after the other, in task order. *)
Fixpoint finish (pool : Pool) (w : State P)
    : option (Completion (list DomainResult) * State P * list Moment) :=
  match pool with
  | [] => Some (Return [], w, [])
  | (d, Starved) :: _ => None
  | (d, Settled (Throw e)) :: _ => Some (Throw e, w, [])
  | (d, Settled (Return r)) :: rest =>
      match finish rest w with
      | None => None
      | Some (Throw e, w', ms) => Some (Throw e, w', ms)
      | Some (Return rs, w', ms) => Some (Return (r :: rs), w', ms)
      end
  | (d, Pending k) :: rest =>
      match complete k w with
      | None => None
      | Some (Throw e, w1) => Some (Throw e, w1, [Ended d])
      | Some (Return r, w1) =>
          match finish rest w1 with
          | None => None
          | Some (Throw e, w', ms) => Some (Throw e, w', Ended d :: ms)
          | Some (Return rs, w', ms) => Some (Return (r :: rs), w', Ended d :: ms)
          end
      end
  end.

(** The event loop while [crawlDomains] awaits [Promise.all(tasks)].  The
    order in which the requests and the timers of the tasks complete is
    not the program's to choose: [sched] lists the tasks in the order in
    which they are resumed (an entry that names no pending task resumes
    nothing), and the tasks still pending when [sched] is used up are
    completed in task order.  The remainder of [sched] is returned. *)
Fixpoint event_loop (sched : list nat) (pool : Pool) (w : State P)
    : option (Completion (list DomainResult) * State P * list Moment * list nat) :=
  match Promise_state pool with
  | Some c => Some (c, w, [], sched)
  | None =>
      match sched with
      | [] =>
          match finish pool w with
          | None => None
          | Some (c, w', ms) => Some (c, w', ms, [])
          end
      | i :: sched' =>
          let '(pool', w', ms) := resume i pool w in
          match event_loop sched' pool' w' with
          | None => None
          | Some (c, w'', ms', s) => Some (c, w'', ms ++ ms', s)
          end
      end
  end.

(** [const tasks = batch.map(crawlDomain); await Promise.all(tasks)]: every
    task of the batch is started before any of them is resumed. *)
Definition Promise_all (fuel : nat) (sched : list nat) (batch : list string)
    (w : State P)
    : option (Completion (list DomainResult) * State P * list Moment * list nat) :=
  let '(pool, w1, ms) := start_all fuel batch w in
  match event_loop sched pool w1 with
  | None => None
  | Some (c, w2, ms', sched') =>
      Some (c, w2, ms ++ ended_at_start pool ++ ms', sched')
  end.

(** The [for (let i = 0; i < domains.length; i += PARALLEL_REQUESTS)]
    loop of [crawlDomains], from index [i] with [results] so far. *)
Fixpoint crawlDomains_from (fuel : nat) (sched : list nat)
    (domains : list string) (i : nat) (results : list DomainResult)
    (w : State P)
    : option (Completion (list DomainResult) * State P * list Moment) :=
  match fuel with
  | 0 => None
  | S fuel =>
      if (i <? length domains)%nat then
        match Promise_all fuel sched
                (slice i (i + PARALLEL_REQUESTS) domains) w with
        | None => None
        | Some (Throw e, w', ms, _) => Some (Throw e, w', ms)
        | Some (Return batchResults, w', ms, sched') =>
            match crawlDomains_from fuel sched' domains
                    (i + PARALLEL_REQUESTS) (results ++ batchResults) w' with
            | None => None
            | Some (c, w'', ms') => Some (c, w'', ms ++ ms')
            end
        end
      else Some (Return results, w, [])
  end.

(** [crawlDomains], with the moments of its tasks ... *)
Definition crawlDomains_timeline (fuel : nat) (sched : list nat)
    (domains : list string) (w : State P)
    : option (Completion (list DomainResult) * State P * list Moment) :=
  crawlDomains_from fuel sched domains 0 [] w.

(** ... and as its caller sees it. *)
Definition crawlDomains (fuel : nat) (sched : list nat)
    (domains : list string) (w : State P)
    : option (Completion (list DomainResult) * State P) :=
  match crawlDomains_timeline fuel sched domains w with
  | None => None
  | Some (c, w', _) => Some (c, w')
  end.

End EventLoop.


(* ===================================================================== *)
(** ** Concrete platforms and sites *)
(* ===================================================================== *)

(** A site whose pages never change, met through the model resolver. *)
Definition static_site (site : string -> Outcome) : Platform :=
  {| Net := unit;
     new_URL := NodeURL.new_URL;
     axios_get := fun url n => (site url, n) |}.

(** The state in which the entry point starts. *)
Definition start (P : Platform) (n : Net) : State P := mkState P ∅ [] n.

(** The scenario of the specification: the root links to [/product/42] and
    to [/about], which links to [/product/99]. *)
Definition scenario_site (url : string) : Outcome :=
  if String.eqb url "https://example1.com"
  then Resolved ["/product/42"; "/about"]
  else if String.eqb url "https://example1.com/about"
  then Resolved ["/product/99"]
  else Rejected (Some 404).

Definition scenario_config : Config :=
  {| MAX_DEPTH := 2; RETRY_LIMIT := 3; PARALLEL_REQUESTS := 5;
     DELAY_BETWEEN_REQUESTS := 1000 |}.

(** A chain root -> [/a] -> [/b] -> [/product/7]: the product link is found
    at depth 3, the default [MAX_DEPTH]. *)
Definition chain_site (url : string) : Outcome :=
  if String.eqb url "https://example1.com" then Resolved ["/a"]
  else if String.eqb url "https://example1.com/a" then Resolved ["/b"]
  else if String.eqb url "https://example1.com/b" then Resolved ["/product/7"]
  else Rejected (Some 404).

(** A server that always answers 429, one that always answers 503, and one
    that never answers. *)
Definition busy_site (url : string) : Outcome := Rejected (Some 429).
Definition silent_site (url : string) : Outcome := Rejected None.

(** Two pages that link to each other and to themselves. *)
Definition cyclic_site (url : string) : Outcome :=
  if String.eqb url "https://example1.com"
  then Resolved ["/loop"; "https://example1.com"]
  else if String.eqb url "https://example1.com/loop"
  then Resolved ["https://example1.com"; "/loop"; "/product/1"]
  else Rejected (Some 404).

(** Not the platform's resolver: a stand-in whose [hostname] repeats the
    whole [href], so that the links of a site pass [isValidUrl] against the
    site's root.  It serves to run the recursion of the engine in examples. *)
Definition lenient_URL : URLParser := fun input base =>
  match NodeURL.new_URL input base with
  | Some u => Some (mkURL (href u) (protocol u) (host u) (href u) (pathname u)
                           (search u) (hash u))
  | None => None
  end.

Definition lenient_site (site : string -> Outcome) : Platform :=
  {| Net := unit;
     new_URL := lenient_URL;
     axios_get := fun url n => (site url, n) |}.

(** The domains of the entry point, and four more to fill a second batch. *)
Definition seven_domains : list string :=
  ["https://example1.com"; "https://example2.com"; "https://example3.com";
   "https://example4.com"; "https://example5.com"; "https://example6.com";
   "https://example7.com"].

(* ===================================================================== *)
(** ** Vocabulary of the properties *)
(* ===================================================================== *)

(** The events that concern the URL [u]: its claim and its requests. *)
Definition about (u : string) (e : Event) : bool :=
  match e with
  | EvAdd v | EvGet v => bool_decide (v = u)
  | EvDelay _ => false
  end.

Definition is_get (e : Event) : bool :=
  match e with EvGet _ => true | _ => false end.

Definition is_cooldown (e : Event) : bool :=
  match e with EvDelay 3000 => true | _ => false end.

(** The specification's reading of the classifier: the patterns are tested
    against the path of the URL. *)
Definition classify_by_path (u : URL) : bool :=
  existsb (fun pattern => RegExp_test pattern (pathname u)) PRODUCT_PATTERNS.

(** The specification's reading of the validity check: the link resolves,
    and the host of the result holds the host of the target domain. *)
Definition same_host {P : Platform} (url baseDomain : string) : bool :=
  match new_URL url baseDomain, new_URL baseDomain baseDomain with
  | Some parsedUrl, Some target => Str.includes (hostname parsedUrl) (hostname target)
  | _, _ => false
  end.

(** What a caller and an observer get from a run: how it completed, and
    the events of the world. *)
Definition observe {P : Platform} {A : Type} (r : option (Completion A * State P))
    : option (Completion A * list Event) :=
  match r with
  | Some (c, w) => Some (c, trace w)
  | None => None
  end.

Section Vocabulary.

Context {cfg : Config} {P : Platform}.

(** Fuel that suffices for [crawlUrl] at [depth]: one unit for the call,
    and per remaining level the iterations of the retry loop and its exit. *)
Definition fuel_for (depth : nat) : nat :=
  (S MAX_DEPTH - depth) * (RETRY_LIMIT + 2) + 1.

(** In a stretch [evs] of the trace, [u] is claimed once and then requested
    by one run of the retry loop. *)
Definition claimed_once (u : string) (evs : list Event) : Prop :=
  exists k, k <= RETRY_LIMIT /\
    List.filter (about u) evs = EvAdd u :: repeat (EvGet u) k.

(** What a run from [w] to [w'] with events [evs] may do about [u]. *)
Definition url_ok (u : string) (w : State P) (evs : list Event) (w' : State P) : Prop :=
  (u ∈ visitedUrls w -> List.filter (about u) evs = []) /\
  (u ∉ visitedUrls w ->
     ((u ∉ visitedUrls w') /\ List.filter (about u) evs = []) \/
     ((u ∈ visitedUrls w') /\ claimed_once u evs)).

(** A run of [crawlUrl]. *)
Record run_ok (w : State P) (evs : list Event) (w' : State P) : Prop := {
  run_trace : trace w' = trace w ++ evs;
  run_mono : visitedUrls w ⊆ visitedUrls w';
  run_urls : forall u, url_ok u w evs w'
}.

(** A run of the retry loop of [url], entered with [attempts]. *)
Record loop_ok (url : string) (attempts : nat)
    (w : State P) (evs : list Event) (w' : State P) : Prop := {
  loop_trace : trace w' = trace w ++ evs;
  loop_mono : visitedUrls w ⊆ visitedUrls w';
  loop_self : exists k, k + attempts <= RETRY_LIMIT /\
                List.filter (about url) evs = repeat (EvGet url) k;
  loop_urls : forall u, u <> url -> url_ok u w evs w'
}.

(** The specification's reading of [crawlDomains]: the list cut into
    consecutive batches of [PARALLEL_REQUESTS] domains ... *)
Fixpoint batches_upto (n : nat) (domains : list string) : list (list string) :=
  match n, domains with
  | 0, _ | _, [] => []
  | S n, _ => (take PARALLEL_REQUESTS domains)
              :: (batches_upto n (drop PARALLEL_REQUESTS domains))
  end.

Definition batches (domains : list string) : list (list string) :=
  batches_upto (length domains) domains.

(** ... each batch started as a whole, in order, and ended as a whole,
    in some order, before the next is started. *)
Inductive batch_timeline : list (list string) -> list Moment -> Prop :=
| timeline_nil : batch_timeline [] []
| timeline_cons batch order rest ms :
    order ≡ₚ batch ->
    batch_timeline rest ms ->
    batch_timeline (batch :: rest)
      (map Started batch ++ map Ended order ++ ms).

End Vocabulary.

(* ===================================================================== *)
(** ** Vocabulary of the further properties *)
(* ===================================================================== *)

(** The event [e] is the claim or a request of [u]. *)
Definition names (u : string) (e : Event) : Prop :=
  e = EvGet u \/ e = EvAdd u.

(** Scanning a stretch of the trace for two requests in a row: [rested]
    tells whether a [delay] has passed since the last request. *)
Fixpoint spaced (rested : bool) (evs : list Event) : bool :=
  match evs with
  | [] => true
  | EvGet _ :: rest => rested && spaced false rest
  | EvDelay _ :: rest => spaced true rest
  | EvAdd _ :: rest => spaced rested rest
  end.

Section Semantics.

Context {cfg : Config} {P : Platform}.

(** [u] is what a link of [hrefs] that passes [isValidUrl] resolves to. *)
Definition resolved_from (hrefs : list string) (baseDomain u : string) : Prop :=
  exists link parsedUrl,
    link ∈ hrefs /\ isValidUrl link baseDomain = true /\
    new_URL link baseDomain = Some parsedUrl /\ href parsedUrl = u.

(** [u] is what some link that passes [isValidUrl] resolves to. *)
Definition valid_target (baseDomain u : string) : Prop :=
  exists link parsedUrl,
    isValidUrl link baseDomain = true /\
    new_URL link baseDomain = Some parsedUrl /\ href parsedUrl = u.

(** A list as [crawlUrl] returns them: no URL twice, product URLs only. *)
Definition product_set (baseDomain : string) (r : list string) : Prop :=
  NoDup r /\
  forall u, u ∈ r -> isProductUrl u = true /\ valid_target baseDomain u.

(** What the crawl follows: a valid link that is no product URL. *)
Definition internal_target (baseDomain u : string) : Prop :=
  isProductUrl u = false /\ valid_target baseDomain u.

(** Where a run of [crawlUrl] stands: at a call, at the head of the retry
    loop, or in the [for] loop over the children with the product URLs
    gathered so far. *)
Inductive Phase :=
| Call (url : string) (depth : nat)
| Loop (url : string) (depth attempts : nat)
| For (depth : nat) (internalUrls productUrls : list string).

(** The runs of [crawlUrl] that return, as a relation: one rule per path
    through the function.  [exec baseDomain phase w r w'] is a run from the
    store [w] that returns [r] in the store [w']. *)
Inductive exec (baseDomain : string)
    : Phase -> State P -> list string -> State P -> Prop :=
| exec_skip url depth w :
    (MAX_DEPTH <? depth)%nat || bool_decide (url ∈ visitedUrls w) = true ->
    exec baseDomain (Call url depth) w [] w
| exec_enter url depth w r w' :
    (MAX_DEPTH <? depth)%nat || bool_decide (url ∈ visitedUrls w) = false ->
    exec baseDomain (Loop url depth 0) (visitedUrls_add url w) r w' ->
    exec baseDomain (Call url depth) w r w'
| exec_exhausted url depth attempts w :
    RETRY_LIMIT <= attempts ->
    exec baseDomain (Loop url depth attempts) w [] w
| exec_retry url depth attempts w status w1 r w' :
    attempts < RETRY_LIMIT ->
    get url w = (Rejected status, w1) -> is_429 status = true ->
    exec baseDomain (Loop url depth (attempts + 1)) (delay 3000 w1) r w' ->
    exec baseDomain (Loop url depth attempts) w r w'
| exec_failed url depth attempts w status w1 :
    attempts < RETRY_LIMIT ->
    get url w = (Rejected status, w1) -> is_429 status = false ->
    exec baseDomain (Loop url depth attempts) w [] w1
| exec_scan_throws url depth attempts w hrefs w1 :
    attempts < RETRY_LIMIT ->
    get url w = (Resolved hrefs, w1) ->
    each_link hrefs baseDomain (visitedUrls w1) [] [] = None ->
    exec baseDomain (Loop url depth attempts) w [] w1
| exec_page url depth attempts w hrefs w1 productUrls internalUrls r w' :
    attempts < RETRY_LIMIT ->
    get url w = (Resolved hrefs, w1) ->
    each_link hrefs baseDomain (visitedUrls w1) [] []
      = Some (productUrls, internalUrls) ->
    exec baseDomain (For depth internalUrls productUrls) w1 r w' ->
    exec baseDomain (Loop url depth attempts) w r w'
| exec_done depth productUrls w :
    exec baseDomain (For depth [] productUrls) w productUrls w
| exec_child depth internalUrl rest productUrls w childProductUrls w1 r w' :
    exec baseDomain (Call internalUrl (depth + 1))
      (delay DELAY_BETWEEN_REQUESTS w) childProductUrls w1 ->
    exec baseDomain (For depth rest (add_all childProductUrls productUrls)) w1 r w' ->
    exec baseDomain (For depth (internalUrl :: rest) productUrls) w r w'.

End Semantics.

(* ===================================================================== *)
(** ** Vocabulary of the event loop *)
(* ===================================================================== *)

Section Tasks.

Context {P : Platform}.

(** Whatever the requests are answered, [k] ends in the [return] of a
    value that satisfies [Q]: it does not throw, and the fuel does not run
    out. *)
Fixpoint returns {A : Type} (Q : A -> Prop) (k : Async A) : Prop :=
  match k with
  | Done (Return a) => Q a
  | Done (Throw _) => False
  | NoFuel => False
  | AddThen _ k => returns Q k
  | AwaitGet _ k => forall o, returns Q (k o)
  | AwaitDelay _ k => returns Q k
  end.

Definition task_returns {A : Type} (Q : A -> Prop) (t : Task A) : Prop :=
  match t with
  | Pending k => returns Q k
  | Settled (Return a) => Q a
  | Settled (Throw _) => False
  | Starved => False
  end.

(** Every task of the pool returns a result that bears its domain. *)
Definition pool_returns (pool : Pool) : Prop :=
  Forall (fun e => task_returns (fun r => domain r = e.1) e.2) pool.

(** The domains of the pending tasks, in task order. *)
Fixpoint pending (pool : Pool) : list string :=
  match pool with
  | [] => []
  | (d, Pending _) :: rest => d :: pending rest
  | _ :: rest => pending rest
  end.

(** How [k] settles when every request is answered from the server state
    [n]. *)
Fixpoint settles {A : Type} (n : Net) (k : Async A) : option (Completion A) :=
  match k with
  | Done c => Some c
  | NoFuel => None
  | AddThen _ k => settles n k
  | AwaitGet url k => settles n (k (fst (axios_get url n)))
  | AwaitDelay _ k => settles n k
  end.

Definition task_settles {A : Type} (n : Net) (t : Task A) : option (Completion A) :=
  match t with
  | Pending k => settles n k
  | Settled c => Some c
  | Starved => None
  end.

(** The world [w] with the visited set of one task. *)
Definition with_visited (visited : gset string) (w : State P) : State P :=
  {| visitedUrls := visited; trace := trace w; net := net w |}.

(** What an observer gets from a run of [crawlDomains]: how it completed,
    the events of the world and the moments of the tasks. *)
Definition observe_tasks {A : Type}
    (r : option (Completion A * State P * list Moment))
    : option (Completion A * list Event * list Moment) :=
  match r with
  | Some (c, w, ms) => Some (c, trace w, ms)
  | None => None
  end.

End Tasks.

(** A shop whose every page lists the same two products, one of them
    twice, and links to a second page. *)
Definition catalog_site (url : string) : Outcome :=
  Resolved ["/product/1"; "/item/2?size=m"; "/product/1"; "/more"; "/more"].

(** A configuration that never attempts a request, and one whose batches
    hold no domain. *)
Definition no_attempt_config : Config :=
  {| MAX_DEPTH := 3; RETRY_LIMIT := 0; PARALLEL_REQUESTS := 5;
     DELAY_BETWEEN_REQUESTS := 1000 |}.

Definition empty_batch_config : Config :=
  {| MAX_DEPTH := 3; RETRY_LIMIT := 3; PARALLEL_REQUESTS := 0;
     DELAY_BETWEEN_REQUESTS := 1000 |}.

(** Two attempts per URL, two domains per batch. *)
Definition pair_config : Config :=
  {| MAX_DEPTH := 3; RETRY_LIMIT := 2; PARALLEL_REQUESTS := 2;
     DELAY_BETWEEN_REQUESTS := 1000 |}.

(** The domains of the entry point. *)
Definition entry_domains : list string :=
  ["https://example1.com"; "https://example2.com"; "https://example3.com"].

(* ===================================================================== *)
(** ** Strings: what [includes] decides *)
(* ===================================================================== *)

Module StrFacts.
Import Str.

Lemma app_nil (s : string) : "" +:+ s = s.
Proof. reflexivity. Qed.

Lemma app_cons (c : ascii) (a b : string) : String c a +:+ b = String c (a +:+ b).
Proof. reflexivity. Qed.

Lemma prefix_app (p q : string) : String.prefix p (p +:+ q) = true.
Proof.
  induction p as [|a p IH]; rewrite ?app_nil, ?app_cons; simpl.
  - destruct q; reflexivity.
  - destruct (ascii_dec a a); [exact IH | congruence].
Qed.

Lemma prefix_inv (p s : string) :
  String.prefix p s = true -> exists q, s = p +:+ q.
Proof.
  revert s; induction p as [|a p IH]; intros s H.
  - exists s; reflexivity.
  - destruct s as [|b s]; simpl in H; [discriminate|].
    destruct (ascii_dec a b) as [->|]; [|discriminate].
    destruct (IH _ H) as [q ->]. exists q; reflexivity.
Qed.

Lemma includes_unfold (s sub : string) :
  includes s sub =
  String.prefix sub s ||
  match s with EmptyString => false | String _ s' => includes s' sub end.
Proof. destruct s; reflexivity. Qed.

Lemma includes_intro (pre sub post : string) :
  includes (pre +:+ sub +:+ post) sub = true.
Proof.
  induction pre as [|c pre IH].
  - change (includes (sub +:+ post) sub = true).
    rewrite includes_unfold, prefix_app. reflexivity.
  - change (includes (String c (pre +:+ sub +:+ post)) sub = true).
    rewrite includes_unfold, IH. apply orb_true_r.
Qed.

Lemma includes_inv (s sub : string) :
  includes s sub = true -> exists pre post, s = pre +:+ sub +:+ post.
Proof.
  induction s as [|c s IH]; rewrite includes_unfold; intros H;
    apply orb_true_iff in H as [H|H].
  - apply prefix_inv in H as [q ->]. exists EmptyString, q; reflexivity.
  - discriminate.
  - apply prefix_inv in H as [q ->]. exists EmptyString, q; reflexivity.
  - destruct (IH H) as (pre & post & ->). exists (String c pre), post; reflexivity.
Qed.

Lemma includes_spec (s sub : string) :
  includes s sub = true <-> exists pre post, s = pre +:+ sub +:+ post.
Proof.
  split; [apply includes_inv|].
  intros (pre & post & ->). apply includes_intro.
Qed.

Lemma app_assoc (a b c : string) : (a +:+ b) +:+ c = a +:+ (b +:+ c).
Proof.
  induction a as [|x a IH]; rewrite ?app_nil, ?app_cons; [reflexivity | now rewrite IH].
Qed.

(** A substring of a substring is a substring. *)
Lemma includes_trans (s sub x : string) :
  includes s sub = true -> includes sub x = true -> includes s x = true.
Proof.
  intros H1 H2.
  apply includes_inv in H1 as (p1 & q1 & ->).
  apply includes_inv in H2 as (p2 & q2 & ->).
  replace (p1 +:+ (p2 +:+ x +:+ q2) +:+ q1)
    with ((p1 +:+ p2) +:+ x +:+ (q2 +:+ q1))
    by (rewrite !app_assoc; reflexivity).
  apply includes_intro.
Qed.

Lemma includes_app_r (a b x : string) :
  includes b x = true -> includes (a +:+ b) x = true.
Proof.
  intros H. apply includes_inv in H as (p & q & ->).
  rewrite <- app_assoc. apply includes_intro.
Qed.

Lemma includes_app_l (a b x : string) :
  includes a x = true -> includes (a +:+ b) x = true.
Proof.
  intros H. apply includes_inv in H as (p & q & ->).
  rewrite !app_assoc. apply includes_intro.
Qed.

Lemma includes_char (s : string) (c : ascii) :
  includes s (String c EmptyString) = true -> has_char c s.
Proof.
  induction s as [|d s IH]; rewrite includes_unfold; intros H;
    apply orb_true_iff in H as [H|H]; simpl in *; try discriminate.
  - destruct (ascii_dec c d); [left; assumption | discriminate].
  - right; auto.
Qed.

Lemma break_app (stop : ascii -> bool) (s : string) :
  s = fst (break stop s) +:+ snd (break stop s).
Proof.
  induction s as [|c s IH]; simpl; [reflexivity|].
  destruct (stop c); simpl; [reflexivity|].
  destruct (break stop s) as [a b]; simpl in *.
  rewrite app_cons. now rewrite <- IH.
Qed.

Lemma break_no_stop (stop : ascii -> bool) (s : string) (c : ascii) :
  has_char c (fst (break stop s)) -> stop c = false.
Proof.
  induction s as [|d s IH]; simpl; [tauto|].
  destruct (stop d) eqn:E; simpl; [tauto|].
  destruct (break stop s) as [a b]; simpl in *.
  intros [->|H]; auto.
Qed.

Lemma strip_prefix_app (p s rest : string) :
  strip_prefix p s = Some rest -> s = p +:+ rest.
Proof.
  revert s; induction p as [|a p IH]; intros s H; simpl in *.
  - rewrite app_nil. congruence.
  - destruct s as [|b s]; [discriminate|].
    destruct (Ascii.eqb_spec a b) as [->|]; [|discriminate].
    rewrite app_cons. now rewrite (IH _ H).
Qed.

End StrFacts.

(* ===================================================================== *)
(** ** isValidUrl *)
(* ===================================================================== *)

(** When resolution fails, [isValidUrl] answers [false]: nothing reaches the
    caller. *)
Lemma isValidUrl_unresolved {P : Platform} (url baseDomain : string) :
  new_URL url baseDomain = None -> isValidUrl url baseDomain = false.
Proof. unfold isValidUrl. now intros ->. Qed.

(** X10 (no link is valid).  A host name never holds a ["/"]: with any
    resolver that respects this, no link is valid for a base location that
    holds one, as every [scheme://host] does. *)
Lemma isValidUrl_base_with_slash {P : Platform} :
  (forall i b u, new_URL i b = Some u -> Str.includes (hostname u) "/" = false) ->
  forall url baseDomain,
    Str.includes baseDomain "/" = true ->
    isValidUrl url baseDomain = false.
Proof.
  intros Hhost url baseDomain Hb. unfold isValidUrl.
  destruct (new_URL url baseDomain) as [u|] eqn:E; [|reflexivity].
  destruct (Str.includes (hostname u) baseDomain) eqn:I; [|reflexivity].
  pose proof (StrFacts.includes_trans _ _ _ I Hb) as T.
  rewrite (Hhost _ _ _ E) in T. discriminate.
Qed.

(** The model resolver on the kinds of link a page holds. *)
Example new_URL_path_absolute :
  NodeURL.new_URL "/about" "https://example1.com"
  = Some (mkURL "https://example1.com/about" "https:" "example1.com"
            "example1.com" "/about" "" "").
Proof. reflexivity. Qed.

Example new_URL_absolute :
  NodeURL.new_URL "http://shop.example1.com:8080/item/3?ref=a#top" "https://example1.com"
  = Some (mkURL "http://shop.example1.com:8080/item/3?ref=a#top" "http:"
            "shop.example1.com:8080" "shop.example1.com" "/item/3" "?ref=a" "#top").
Proof. reflexivity. Qed.

Example new_URL_relative :
  NodeURL.new_URL "shoes" "https://example1.com/catalog/index"
  = Some (mkURL "https://example1.com/catalog/shoes" "https:" "example1.com"
            "example1.com" "/catalog/shoes" "" "").
Proof. reflexivity. Qed.

Example new_URL_root :
  NodeURL.new_URL "https://example1.com" "https://example1.com"
  = Some (mkURL "https://example1.com/" "https:" "example1.com"
            "example1.com" "/" "" "").
Proof. reflexivity. Qed.

Example new_URL_mailto :
  NodeURL.new_URL "mailto:shop@example1.com" "https://example1.com"
  = Some (mkURL "mailto:shop@example1.com" "mailto:" "" "" "shop@example1.com" "" "").
Proof. reflexivity. Qed.

Example new_URL_bare_base :
  NodeURL.new_URL "/about" "example1.com" = None /\
  NodeURL.new_URL "https://example1.com/about" "example1.com" = None.
Proof. split; reflexivity. Qed.

Module NodeURLFacts.
Import Str StrFacts.
Import NodeURL (parse_absolute, special_scheme, other_scheme, is_alpha,
  is_colon, is_path_end, is_query_start, is_hash).

Lemma parse_absolute_colon (s : string) (u : URL) :
  parse_absolute s = Some u -> includes s ":" = true.
Proof.
  unfold parse_absolute, special_scheme.
  destruct (strip_prefix "https://" s) as [rest|] eqn:E1.
  { intros _. rewrite (strip_prefix_app _ _ _ E1).
    apply (includes_intro "https" ":" ("//" +:+ rest)). }
  destruct (strip_prefix "http://" s) as [rest|] eqn:E2.
  { intros _. rewrite (strip_prefix_app _ _ _ E2).
    apply (includes_intro "http" ":" ("//" +:+ rest)). }
  unfold other_scheme.
  pose proof (break_app (fun c => negb (is_alpha c)) s) as Hs.
  destruct (break (fun c => negb (is_alpha c)) s) as [name rest]; simpl in Hs.
  destruct name as [|a name]; [discriminate|].
  destruct rest as [|c rest]; [discriminate|].
  destruct (Ascii.eqb_spec c ":") as [->|Hc].
  - intros _. rewrite Hs. apply includes_app_r.
    apply (includes_intro "" ":" rest).
  - intros H. exfalso.
    destruct c as [[] [] [] [] [] [] [] []]; try discriminate H.
    now apply Hc.
Qed.

Lemma parse_absolute_hostname (s : string) (u : URL) :
  parse_absolute s = Some u -> includes (hostname u) ":" = false.
Proof.
  unfold parse_absolute.
  destruct (special_scheme s) as [[proto rest]|].
  - destruct (break is_path_end rest) as [authority tail].
    pose proof (break_no_stop is_colon authority ":") as Hn.
    destruct (break is_colon authority) as [name x]; simpl in Hn.
    destruct (break is_query_start tail) as [path rest'].
    destruct (break is_hash rest') as [query fragment].
    destruct (is_empty name); [discriminate|].
    intros [= <-]; simpl.
    destruct (includes name ":") eqn:I; [|reflexivity].
    apply includes_char, Hn in I. discriminate.
  - destruct (other_scheme s) as [[proto rest]|]; [|discriminate].
    destruct (break is_query_start rest) as [path rest'].
    destruct (break is_hash rest'). intros [= <-]. reflexivity.
Qed.

Lemma new_URL_hostname (input base : string) (u : URL) :
  NodeURL.new_URL input base = Some u -> includes (hostname u) ":" = false.
Proof.
  unfold NodeURL.new_URL.
  destruct (parse_absolute base) as [b|] eqn:Eb; [|discriminate].
  destruct (parse_absolute input) as [v|] eqn:Ev.
  { intros [= <-]. eapply parse_absolute_hostname; eauto. }
  destruct (is_empty (host b)); [discriminate|].
  intros H.
  repeat match type of H with
    | (match ?x with _ => _ end) = _ => destruct x
    end; eapply parse_absolute_hostname; eauto.
Qed.

Lemma new_URL_base (input base : string) (u : URL) :
  NodeURL.new_URL input base = Some u -> includes base ":" = true.
Proof.
  unfold NodeURL.new_URL.
  destruct (parse_absolute base) as [b|] eqn:Eb; [|discriminate].
  intros _. eapply parse_absolute_colon; eauto.
Qed.

(** With the model resolver no link is valid, whatever the base
    location: a base that resolves starts with its scheme and so holds a
    [":"], which no host name does. *)
Lemma isValidUrl_never (site : string -> Outcome) (url baseDomain : string) :
  isValidUrl (P:=static_site site) url baseDomain = false.
Proof.
  unfold isValidUrl; simpl.
  destruct (NodeURL.new_URL url baseDomain) as [u|] eqn:E; [|reflexivity].
  destruct (includes (hostname u) baseDomain) eqn:I; [|reflexivity].
  pose proof (includes_trans _ _ _ I (new_URL_base _ _ _ E)) as T.
  rewrite (new_URL_hostname _ _ _ E) in T. discriminate.
Qed.

End NodeURLFacts.

(* ===================================================================== *)
(** ** The crawl engine: fuel and termination *)
(* ===================================================================== *)

Section Termination.

Context {cfg : Config} {P : Platform}.

Local Abbreviation Result := (option (Completion (list string) * State P)).

Lemma crawlUrl_S (fuel : nat) (url baseDomain : string) (depth : nat) (w : State P) :
  crawlUrl (S fuel) url baseDomain depth w =
  if (MAX_DEPTH <? depth)%nat || bool_decide (url ∈ visitedUrls w)
  then Some (Return [], w)
  else while_attempts fuel url baseDomain depth 0 (visitedUrls_add url w).
Proof. reflexivity. Qed.

Lemma while_attempts_S (fuel : nat) (url baseDomain : string) (depth attempts : nat)
    (w : State P) :
  while_attempts (S fuel) url baseDomain depth attempts w =
  if (attempts <? RETRY_LIMIT)%nat then
    match try_block (fun u => crawlUrl fuel u baseDomain (depth + 1))
                    url baseDomain w with
    | None => None
    | Some (Return r, w') => Some (Return r, w')
    | Some (Throw status, w') =>
        if is_429 status
        then while_attempts fuel url baseDomain depth (attempts + 1) (delay 3000 w')
        else Some (Return [], w')
    end
  else Some (Return [], w).
Proof. reflexivity. Qed.

(** *** More fuel changes nothing *)

Lemma for_internalUrls_mono (crawl crawl' : string -> State P -> Result)
    (l p : list string) (w : State P) (r : Completion (list string) * State P) :
  (forall u w r, crawl u w = Some r -> crawl' u w = Some r) ->
  for_internalUrls crawl l p w = Some r ->
  for_internalUrls crawl' l p w = Some r.
Proof.
  intros H. revert p w. induction l as [|u l IH]; intros p w; simpl; [auto|].
  destruct (crawl u (delay DELAY_BETWEEN_REQUESTS w)) as [[[c|e] w']|] eqn:E;
    [| |discriminate]; rewrite (H _ _ _ E); auto.
Qed.

Lemma try_block_mono (crawl crawl' : string -> State P -> Result)
    (url baseDomain : string) (w : State P) (r : Completion (list string) * State P) :
  (forall u w r, crawl u w = Some r -> crawl' u w = Some r) ->
  try_block crawl url baseDomain w = Some r ->
  try_block crawl' url baseDomain w = Some r.
Proof.
  intros H. unfold try_block.
  destruct (get url w) as [[hrefs|status] w1]; [|auto].
  destruct (each_link hrefs baseDomain (visitedUrls w1) [] []) as [[p i]|]; [|auto].
  apply for_internalUrls_mono, H.
Qed.

Lemma fuel_mono_both (fuel : nat) :
  (forall fuel' url baseDomain depth w r,
     fuel <= fuel' ->
     crawlUrl fuel url baseDomain depth w = Some r ->
     crawlUrl fuel' url baseDomain depth w = Some r) /\
  (forall fuel' url baseDomain depth attempts w r,
     fuel <= fuel' ->
     while_attempts fuel url baseDomain depth attempts w = Some r ->
     while_attempts fuel' url baseDomain depth attempts w = Some r).
Proof.
  induction fuel as [|fuel [IHc IHw]]; [split; intros; discriminate|].
  split.
  - intros [|fuel'] url baseDomain depth w r Hle; [lia|].
    rewrite !crawlUrl_S.
    destruct (_ || _); [auto|]. apply IHw; lia.
  - intros [|fuel'] url baseDomain depth attempts w r Hle; [lia|].
    rewrite !while_attempts_S.
    destruct (attempts <? RETRY_LIMIT)%nat; [|auto].
    destruct (try_block (fun u => crawlUrl fuel u baseDomain (depth + 1))
                url baseDomain w) as [[c w']|] eqn:E; [|discriminate].
    assert (Hsub : forall u w r,
               crawlUrl fuel u baseDomain (depth + 1) w = Some r ->
               crawlUrl fuel' u baseDomain (depth + 1) w = Some r)
      by (intros; apply IHc; [lia | assumption]).
    rewrite (try_block_mono _ (fun u => crawlUrl fuel' u baseDomain (depth + 1))
               _ _ _ _ Hsub E).
    destruct c as [a|status]; [auto|].
    destruct (is_429 status); [|auto]. apply IHw; lia.
Qed.

Lemma crawlUrl_fuel_mono (fuel fuel' : nat) (url baseDomain : string) (depth : nat)
    (w : State P) (r : Completion (list string) * State P) :
  fuel <= fuel' ->
  crawlUrl fuel url baseDomain depth w = Some r ->
  crawlUrl fuel' url baseDomain depth w = Some r.
Proof. intros; eapply (proj1 (fuel_mono_both fuel)); eauto. Qed.

(** *** Enough fuel gives a result *)

Lemma for_internalUrls_total (crawl : string -> State P -> Result)
    (l p : list string) (w : State P) :
  (forall u w, exists r w', crawl u w = Some (Return r, w')) ->
  exists r w', for_internalUrls crawl l p w = Some (Return r, w').
Proof.
  intros H. revert p w. induction l as [|u l IH]; intros p w; simpl; [eauto|].
  destruct (H u (delay DELAY_BETWEEN_REQUESTS w)) as (r & w' & ->). apply IH.
Qed.

Lemma while_attempts_total (n : nat) (baseDomain : string) (depth : nat) :
  (forall fuel u w, n <= fuel ->
     exists r w', crawlUrl fuel u baseDomain (depth + 1) w = Some (Return r, w')) ->
  forall k attempts fuel url w,
    RETRY_LIMIT <= attempts + k -> n + k + 1 <= fuel ->
    exists r w', while_attempts fuel url baseDomain depth attempts w = Some (Return r, w').
Proof.
  intros Hc. induction k as [|k IH]; intros attempts [|fuel] url w Hk Hf; try lia;
    rewrite while_attempts_S;
    destruct (Nat.ltb_spec attempts RETRY_LIMIT); try lia; eauto.
  unfold try_block.
  destruct (get url w) as [[hrefs|status] w1].
  - destruct (each_link hrefs baseDomain (visitedUrls w1) [] []) as [[p i]|]; [|eauto].
    destruct (for_internalUrls_total
                (fun u => crawlUrl fuel u baseDomain (depth + 1)) i p w1)
      as (r & w' & ->); [|eauto].
    intros; apply Hc; lia.
  - destruct (is_429 status); [|eauto]. apply IH; lia.
Qed.

Lemma crawlUrl_total (m : nat) :
  forall depth fuel url baseDomain w,
    S MAX_DEPTH - depth <= m -> m * (RETRY_LIMIT + 2) + 1 <= fuel ->
    exists r w', crawlUrl fuel url baseDomain depth w = Some (Return r, w').
Proof.
  induction m as [|m IH]; intros depth [|fuel] url baseDomain w Hm Hf; try lia;
    rewrite crawlUrl_S.
  - destruct (Nat.ltb_spec MAX_DEPTH depth); [simpl; eauto | lia].
  - destruct (_ || _); [eauto|].
    apply (while_attempts_total (m * (RETRY_LIMIT + 2) + 1) baseDomain depth)
      with (k := RETRY_LIMIT); [|lia|lia].
    intros; apply IH; lia.
Qed.

End Termination.

(* ===================================================================== *)
(** ** The crawl engine: what a run does *)
(* ===================================================================== *)

Section Runs.

Context {cfg : Config} {P : Platform}.

Local Abbreviation Result := (option (Completion (list string) * State P)).

Lemma get_visitedUrls (url : string) (w : State P) :
  visitedUrls (snd (get url w)) = visitedUrls w.
Proof. unfold get. destruct (axios_get url (net w)); reflexivity. Qed.

Lemma get_trace (url : string) (w : State P) :
  trace (snd (get url w)) = trace w ++ [EvGet url].
Proof. unfold get. destruct (axios_get url (net w)); reflexivity. Qed.

Lemma get_outcome (url : string) (w : State P) :
  fst (get url w) = fst (axios_get url (net w)).
Proof. unfold get. destruct (axios_get url (net w)); reflexivity. Qed.

Lemma about_self (u : string) : about u (EvGet u) = true /\ about u (EvAdd u) = true.
Proof. simpl. rewrite bool_decide_eq_true_2; auto. Qed.

Lemma about_other (u v : string) :
  u <> v -> about u (EvGet v) = false /\ about u (EvAdd v) = false.
Proof. intros H. simpl. rewrite bool_decide_eq_false_2; auto. Qed.

Lemma url_ok_refl (u : string) (w : State P) : url_ok u w [] w.
Proof. split; [reflexivity | left; auto]. Qed.

Lemma url_ok_trans (u : string) (w w1 w2 : State P) (e1 e2 : list Event) :
  visitedUrls w ⊆ visitedUrls w1 -> visitedUrls w1 ⊆ visitedUrls w2 ->
  url_ok u w e1 w1 -> url_ok u w1 e2 w2 -> url_ok u w (e1 ++ e2) w2.
Proof.
  intros M1 M2 [A1 B1] [A2 B2]. unfold url_ok, claimed_once in *.
  rewrite !List.filter_app. split.
  - intros Hu. rewrite A1, A2; [reflexivity | set_solver | assumption].
  - intros Hu. destruct (B1 Hu) as [[Hn E1]|[Hi C1]].
    + rewrite E1. simpl. apply B2, Hn.
    + right. split; [set_solver|]. rewrite A2 by assumption.
      rewrite List.app_nil_r. assumption.
Qed.

Lemma run_ok_refl (w : State P) : run_ok w [] w.
Proof.
  split; [symmetry; apply List.app_nil_r | reflexivity | intros; apply url_ok_refl].
Qed.

Lemma run_ok_trans (w w1 w2 : State P) (e1 e2 : list Event) :
  run_ok w e1 w1 -> run_ok w1 e2 w2 -> run_ok w (e1 ++ e2) w2.
Proof.
  intros [T1 M1 U1] [T2 M2 U2]. split.
  - rewrite T2, T1. symmetry. apply List.app_assoc.
  - set_solver.
  - intros u. eapply url_ok_trans; eauto.
Qed.

Lemma run_ok_delay (ms : nat) (w : State P) : run_ok w [EvDelay ms] (delay ms w).
Proof.
  split; [reflexivity | reflexivity |].
  intros u. split; [reflexivity | left; auto].
Qed.

(** The [for] loop over the children, when every child run is a run. *)
Lemma for_internalUrls_run (crawl : string -> State P -> Result)
    (l p : list string) (w : State P) (c : Completion (list string)) (w' : State P) :
  (forall u w c w', crawl u w = Some (c, w') ->
     exists r evs, c = Return r /\ run_ok w evs w') ->
  for_internalUrls crawl l p w = Some (c, w') ->
  exists r evs, c = Return r /\ run_ok w evs w'.
Proof.
  intros H. revert p w. induction l as [|u l IH]; intros p w; simpl.
  - intros [= <- <-]. exists p, []. split; [reflexivity | apply run_ok_refl].
  - destruct (crawl u (delay DELAY_BETWEEN_REQUESTS w)) as [[c1 w1]|] eqn:E;
      [|discriminate].
    destruct (H _ _ _ _ E) as (r1 & e1 & -> & R1).
    intros Hrest. destruct (IH _ _ Hrest) as (r & e2 & -> & R2).
    exists r, ([EvDelay DELAY_BETWEEN_REQUESTS] ++ e1 ++ e2).
    split; [reflexivity|].
    eapply run_ok_trans; [apply run_ok_delay|].
    eapply run_ok_trans; eauto.
Qed.

(** The [try] block either throws right after its request, or returns after
    a run of the children. *)
Lemma try_block_run (crawl : string -> State P -> Result)
    (url baseDomain : string) (w : State P) (c : Completion (list string)) (w' : State P) :
  (forall u w c w', crawl u w = Some (c, w') ->
     exists r evs, c = Return r /\ run_ok w evs w') ->
  try_block crawl url baseDomain w = Some (c, w') ->
  (exists status, c = Throw status /\ w' = snd (get url w)) \/
  (exists r evs, c = Return r /\ run_ok (snd (get url w)) evs w').
Proof.
  intros H. unfold try_block.
  destruct (get url w) as [[hrefs|status] w1]; simpl.
  - destruct (each_link hrefs baseDomain (visitedUrls w1) [] []) as [[p i]|].
    + intros Hfor. right. eapply for_internalUrls_run; eauto.
    + intros [= <- <-]. left; eauto.
  - intros [= <- <-]. left; eauto.
Qed.

Lemma url_ok_after_get (u url : string) (w w' : State P) (evs : list Event) :
  u <> url ->
  url_ok u (snd (get url w)) evs w' -> url_ok u w (EvGet url :: evs) w'.
Proof.
  intros Hne. unfold url_ok, claimed_once. rewrite get_visitedUrls. cbn [List.filter].
  destruct (about_other u url Hne) as [-> _]. auto.
Qed.

Lemma runs_both (fuel : nat) :
  (forall url baseDomain depth w c w',
     crawlUrl fuel url baseDomain depth w = Some (c, w') ->
     exists r evs, c = Return r /\ run_ok w evs w') /\
  (forall url baseDomain depth attempts w c w',
     attempts <= RETRY_LIMIT -> url ∈ visitedUrls w ->
     while_attempts fuel url baseDomain depth attempts w = Some (c, w') ->
     exists r evs, c = Return r /\ loop_ok url attempts w evs w').
Proof.
  induction fuel as [|fuel [IHc IHw]]; [split; intros; discriminate|].
  split.
  - intros url baseDomain depth w c w'. rewrite crawlUrl_S.
    destruct (_ || _) eqn:G.
    { intros [= <- <-]. exists [], []. split; [reflexivity | apply run_ok_refl]. }
    apply orb_false_iff in G as [_ G]. apply bool_decide_eq_false in G.
    intros Hw. apply IHw in Hw as (r & evs & -> & [T M [k [Hk F]] U]);
      [|lia|simpl; set_solver].
    exists r, (EvAdd url :: evs). split; [reflexivity|]. split.
    + rewrite T. simpl. rewrite <- List.app_assoc. reflexivity.
    + simpl in M. set_solver.
    + intros u. destruct (decide (u = url)) as [->|Hne].
      * split; [contradiction|]. intros _. right. split; [simpl in M; set_solver|].
        exists k. split; [lia|]. cbn [List.filter].
        destruct (about_self url) as [_ ->]. now rewrite F.
      * destruct (U u Hne) as [A B]. unfold url_ok, claimed_once in *.
        cbn [List.filter].
        destruct (about_other u url Hne) as [_ ->]. simpl in A, B.
        split; intros Hu; [apply A | apply B]; set_solver.
  - intros url baseDomain depth attempts w c w' Ha Hin. rewrite while_attempts_S.
    destruct (Nat.ltb_spec attempts RETRY_LIMIT) as [Hlt|Hge].
    2:{ intros [= <- <-]. exists [], []. split; [reflexivity|]. split.
        - symmetry; apply List.app_nil_r.
        - reflexivity.
        - exists 0. split; [lia | reflexivity].
        - intros; apply url_ok_refl. }
    destruct (try_block _ url baseDomain w) as [[c1 w1]|] eqn:E; [|discriminate].
    apply try_block_run in E as [(status & -> & ->)|(r & evs & -> & [T M U])];
      [| |intros; eapply IHc; eassumption].
    + destruct (is_429 status).
      * intros Hw. apply IHw in Hw as (r & evs & -> & [T M [k [Hk F]] U]);
          [|lia|simpl; rewrite get_visitedUrls; assumption].
        exists r, (EvGet url :: EvDelay 3000 :: evs). split; [reflexivity|]. split.
        -- rewrite T. simpl. rewrite get_trace. rewrite <- !List.app_assoc. reflexivity.
        -- simpl in M. rewrite get_visitedUrls in M. assumption.
        -- exists (S k). split; [lia|]. cbn [List.filter].
           destruct (about_self url) as [-> _]. now rewrite F.
        -- intros u Hne. apply url_ok_after_get; [assumption|].
           destruct (U u Hne) as [A B]. split; exact A || exact B.
      * intros [= <- <-]. exists [], [EvGet url]. split; [reflexivity|]. split.
        -- apply get_trace.
        -- rewrite get_visitedUrls. reflexivity.
        -- exists 1. split; [lia|]. cbn [List.filter].
           destruct (about_self url) as [-> _]. reflexivity.
        -- intros u Hne. apply url_ok_after_get; [assumption | apply url_ok_refl].
    + intros [= <- <-]. exists r, (EvGet url :: evs). split; [reflexivity|]. split.
      * rewrite T, get_trace. rewrite <- List.app_assoc. reflexivity.
      * rewrite get_visitedUrls in M. assumption.
      * exists 1. split; [lia|]. cbn [List.filter].
        destruct (about_self url) as [-> _].
        destruct (U url) as [A _]. rewrite A; [reflexivity|].
        rewrite get_visitedUrls. assumption.
      * intros u Hne. apply url_ok_after_get; [assumption | apply U].
Qed.

Lemma crawlUrl_run (fuel : nat) (url baseDomain : string) (depth : nat)
    (w : State P) (c : Completion (list string)) (w' : State P) :
  crawlUrl fuel url baseDomain depth w = Some (c, w') ->
  exists r evs, c = Return r /\ run_ok w evs w'.
Proof. apply (proj1 (runs_both fuel)). Qed.

End Runs.

(* ===================================================================== *)
(** ** Properties of the specification *)
(* ===================================================================== *)

Section Properties.

Context {cfg : Config} {P : Platform}.

(** C3 (termination).  On every site, cyclic or not, and from every state,
    [crawlUrl] returns: there are a result and a final state that every run
    with at least [fuel_for depth] units of fuel reaches.  The bound comes
    from the depth guard; the visited set only shortens runs. *)
Theorem crawl_terminates (url baseDomain : string) (depth : nat) (w : State P) :
  exists r w', forall fuel,
    fuel_for depth <= fuel ->
    crawlUrl fuel url baseDomain depth w = Some (Return r, w').
Proof.
  destruct (crawlUrl_total (S MAX_DEPTH - depth) depth (fuel_for depth)
              url baseDomain w) as (r & w' & H); [lia | unfold fuel_for; lia |].
  exists r, w'. intros fuel Hle. eapply crawlUrl_fuel_mono; eassumption.
Qed.

(** *** Rejected requests *)

Lemma try_block_rejected
    (crawl : string -> State P -> option (Completion (list string) * State P))
    (url baseDomain : string) (w : State P) (status : option nat) :
  fst (axios_get url (net w)) = Rejected status ->
  try_block crawl url baseDomain w = Some (Throw status, snd (get url w)).
Proof.
  intros H. unfold try_block. rewrite <- get_outcome in H.
  destruct (get url w) as [o w1]; simpl in *. now subst o.
Qed.

Lemma while_attempts_429 (fuel : nat) (url baseDomain : string)
    (depth attempts : nat) (w : State P) :
  fst (axios_get url (net w)) = Rejected (Some 429) ->
  attempts < RETRY_LIMIT ->
  while_attempts (S fuel) url baseDomain depth attempts w =
  while_attempts fuel url baseDomain depth (attempts + 1)
    (delay 3000 (snd (get url w))).
Proof.
  intros H Ha. rewrite while_attempts_S.
  destruct (Nat.ltb_spec attempts RETRY_LIMIT); [|lia].
  now rewrite (try_block_rejected _ _ _ _ _ H).
Qed.

Lemma while_attempts_exhausted (fuel : nat) (url baseDomain : string)
    (depth : nat) (w : State P) :
  while_attempts (S fuel) url baseDomain depth RETRY_LIMIT w = Some (Return [], w).
Proof. rewrite while_attempts_S. now rewrite Nat.ltb_irrefl. Qed.

Lemma while_attempts_busy (url baseDomain : string) (depth : nat) :
  (forall n, fst (axios_get url n) = Rejected (Some 429)) ->
  forall k attempts fuel w,
    attempts + k = RETRY_LIMIT -> k + 1 <= fuel ->
    exists w',
      while_attempts fuel url baseDomain depth attempts w = Some (Return [], w') /\
      trace w' = trace w ++ concat (repeat [EvGet url; EvDelay 3000] k).
Proof.
  intros Hbusy. induction k as [|k IH]; intros attempts [|fuel] w Hk Hf; try lia.
  - replace attempts with RETRY_LIMIT by lia.
    rewrite while_attempts_exhausted. exists w. split; [reflexivity|].
    symmetry; apply List.app_nil_r.
  - rewrite while_attempts_429; [|apply Hbusy|lia].
    destruct (IH (attempts + 1) fuel (delay 3000 (snd (get url w))))
      as (w' & -> & T); [lia|lia|].
    exists w'. split; [reflexivity|].
    rewrite T. simpl. rewrite get_trace, <- !List.app_assoc. reflexivity.
Qed.

Lemma count_attempts (url : string) (k : nat) :
  length (List.filter is_get (concat (repeat [EvGet url; EvDelay 3000] k))) = k /\
  length (List.filter is_cooldown (concat (repeat [EvGet url; EvDelay 3000] k))) = k.
Proof. induction k as [|k [IH1 IH2]]; simpl; [auto|]. rewrite IH1, IH2. auto. Qed.

(** C4 (retry bound).  A URL within the depth bound, not yet visited, whose
    every request is answered 429: [crawlUrl] claims it, then alternates
    request and 3000 ms cooldown exactly [RETRY_LIMIT] times and returns the
    empty list, not an exception.  The two last parts are the transitions
    of the loop: a 429 below the limit leads, after one cooldown, to the
    loop head with the counter incremented; at the limit the loop gives up
    with the empty list. *)
Theorem rate_limited_retry_bound (fuel : nat) (url baseDomain : string)
    (depth : nat) (w : State P) :
  depth <= MAX_DEPTH ->
  url ∉ visitedUrls w ->
  (forall n, fst (axios_get url n) = Rejected (Some 429)) ->
  RETRY_LIMIT + 2 <= fuel ->
  exists w' evs,
    crawlUrl fuel url baseDomain depth w = Some (Return [], w') /\
    trace w' = trace w ++ evs /\
    evs = EvAdd url :: concat (repeat [EvGet url; EvDelay 3000] RETRY_LIMIT) /\
    length (List.filter is_get evs) = RETRY_LIMIT /\
    length (List.filter is_cooldown evs) = RETRY_LIMIT /\
    (forall f attempts w0,
       attempts < RETRY_LIMIT ->
       while_attempts (S f) url baseDomain depth attempts w0 =
       while_attempts f url baseDomain depth (attempts + 1)
         (delay 3000 (snd (get url w0)))) /\
    (forall f w0,
       while_attempts (S f) url baseDomain depth RETRY_LIMIT w0 = Some (Return [], w0)).
Proof.
  intros Hd Hnew Hbusy Hf. destruct fuel as [|fuel]; [lia|].
  destruct (while_attempts_busy url baseDomain depth Hbusy RETRY_LIMIT 0 fuel
              (visitedUrls_add url w)) as (w' & Hw & T); [lia|lia|].
  exists w', (EvAdd url :: concat (repeat [EvGet url; EvDelay 3000] RETRY_LIMIT)).
  repeat split.
  - rewrite crawlUrl_S.
    destruct (Nat.ltb_spec MAX_DEPTH depth); [lia|].
    rewrite bool_decide_eq_false_2 by assumption. exact Hw.
  - rewrite T. simpl. rewrite <- List.app_assoc. reflexivity.
  - cbn [List.filter is_get]. apply count_attempts.
  - cbn [List.filter is_cooldown]. apply count_attempts.
  - intros f attempts w0 Ha. apply while_attempts_429; [apply Hbusy | assumption].
  - intros f w0. apply while_attempts_exhausted.
Qed.



(** C10 (visited after failure).  After a call of [crawlUrl] within the
    depth bound, whatever became of the requests, the URL is in the visited
    set; and in every later state of the crawl, where the set can only have
    grown, a call on the same URL at any depth returns the empty list at
    once, leaving the state, and so the trace of requests, as it was. *)
Theorem visited_after_failure (fuel : nat) (url baseDomain : string)
    (depth : nat) (w : State P) (c : Completion (list string)) (w' : State P) :
  depth <= MAX_DEPTH ->
  crawlUrl fuel url baseDomain depth w = Some (c, w') ->
  url ∈ visitedUrls w' /\
  forall fuel2 depth2 w2,
    visitedUrls w' ⊆ visitedUrls w2 ->
    crawlUrl (S fuel2) url baseDomain depth2 w2 = Some (Return [], w2).
Proof.
  intros Hd Hrun.
  assert (Hin : url ∈ visitedUrls w').
  { destruct fuel as [|fuel]; [discriminate|]. rewrite crawlUrl_S in Hrun.
    destruct (Nat.ltb_spec MAX_DEPTH depth); [lia|]. cbn [orb] in Hrun.
    destruct (decide (url ∈ visitedUrls w)) as [Hin|Hnew].
    - rewrite bool_decide_eq_true_2 in Hrun by assumption.
      now injection Hrun as <- <-.
    - rewrite bool_decide_eq_false_2 in Hrun by assumption.
      apply (proj2 (runs_both fuel)) in Hrun as (r & evs & _ & [_ M _ _]);
        [|lia|simpl; set_solver].
      simpl in M. set_solver. }
  split; [exact Hin|].
  intros fuel2 depth2 w2 Hsub. rewrite crawlUrl_S.
  rewrite (bool_decide_eq_true_2 (url ∈ visitedUrls w2)) by set_solver.
  now rewrite orb_true_r.
Qed.

(** C7 (visited set).  Over any run of [crawlUrl], and so over a domain
    crawl, which is the run on the root from the empty set: the visited set
    at the end holds the one at the start; and, for every URL, the events of
    the run about it are either none, or one [visitedUrls.add] followed by
    the requests of one retry loop, at most [RETRY_LIMIT] of them.  A URL
    is thus claimed before it is requested, claimed once, and fetched by
    one call only; one that was visited at the start is not requested. *)
Theorem visited_set_discipline (fuel : nat) (url baseDomain : string)
    (depth : nat) (w : State P) (c : Completion (list string)) (w' : State P) :
  crawlUrl fuel url baseDomain depth w = Some (c, w') ->
  visitedUrls w ⊆ visitedUrls w' /\
  exists evs,
    trace w' = trace w ++ evs /\
    forall u,
      (u ∈ visitedUrls w -> List.filter (about u) evs = []) /\
      (List.filter (about u) evs = [] \/
       (u ∈ visitedUrls w') /\
       exists k, k <= RETRY_LIMIT /\
         List.filter (about u) evs = EvAdd u :: repeat (EvGet u) k).
Proof.
  intros Hrun. apply crawlUrl_run in Hrun as (r & evs & _ & [T M U]).
  split; [exact M|]. exists evs. split; [exact T|].
  intros u. destruct (U u) as [A B]. split; [exact A|].
  destruct (decide (u ∈ visitedUrls w)) as [Hin|Hnew].
  - left. auto.
  - destruct (B Hnew) as [[_ E]|[Hin C]]; [left; exact E | right; split; assumption].
Qed.

(** *** The orchestrator *)

Lemma crawlDomain_total (fuel : nat) (d : string) (w : State P) :
  fuel_for 0 <= fuel ->
  exists r w', crawlDomain fuel d w =
               Some (Return {| domain := d; productUrls := r |}, w').
Proof.
  intros Hf. unfold crawlDomain.
  destruct (crawlUrl_total (S MAX_DEPTH) 0 fuel d d (new_Set w))
    as (r & w' & ->); [lia | unfold fuel_for in Hf; lia |].
  eauto.
Qed.

Lemma batches_upto_enough (n m : nat) (l : list string) :
  0 < PARALLEL_REQUESTS -> length l <= n -> length l <= m ->
  batches_upto n l = batches_upto m l.
Proof.
  intros Hp. revert m l. induction n as [|n IH]; intros [|m] [|x l] Hn Hm;
    simpl in *; try reflexivity; try lia.
  f_equal. apply IH.
  - rewrite length_drop. cbn [length] in *. lia.
  - rewrite length_drop. cbn [length] in *. lia.
Qed.

Lemma batches_cons (l : list string) :
  0 < PARALLEL_REQUESTS -> l <> [] ->
  batches l = take PARALLEL_REQUESTS l :: batches (drop PARALLEL_REQUESTS l).
Proof.
  intros Hp Hl. unfold batches. destruct l as [|x l]; [contradiction|].
  simpl length. cbn [batches_upto]. f_equal.
  apply batches_upto_enough; [assumption| |lia].
  rewrite length_drop. cbn [length] in *. lia.
Qed.



(** *** The tasks of a batch return *)

Lemma crawlUrl_async_S {A : Type} (fuel : nat) (url baseDomain : string)
    (depth : nat) (visited : gset string) (k : Cont A) :
  crawlUrl_async (S fuel) url baseDomain depth visited k =
  if (MAX_DEPTH <? depth)%nat || bool_decide (url ∈ visited)
  then k (Return []) visited
  else AddThen url
         (while_async fuel url baseDomain depth 0 ({[url]} ∪ visited) k).
Proof. reflexivity. Qed.

Lemma while_async_S {A : Type} (fuel : nat) (url baseDomain : string)
    (depth attempts : nat) (visited : gset string) (k : Cont A) :
  while_async (S fuel) url baseDomain depth attempts visited k =
  if (attempts <? RETRY_LIMIT)%nat then
    AwaitGet url (fun o =>
      match o with
      | Rejected status =>
          if is_429 status
          then AwaitDelay 3000
                 (while_async fuel url baseDomain depth (attempts + 1) visited k)
          else k (Return []) visited
      | Resolved hrefs =>
          match each_link hrefs baseDomain visited [] [] with
          | None => k (Return []) visited
          | Some (productUrls, internalUrls) =>
              for_async
                (fun u => crawlUrl_async fuel u baseDomain (depth + 1))
                internalUrls productUrls visited
                (fun c visited' =>
                   match c with
                   | Return r => k (Return r) visited'
                   | Throw status =>
                       if is_429 status
                       then AwaitDelay 3000
                              (while_async fuel url baseDomain depth
                                 (attempts + 1) visited' k)
                       else k (Return []) visited'
                   end)
          end
      end)
  else k (Return []) visited.
Proof. reflexivity. Qed.

Lemma for_async_returns {A : Type} (Q : A -> Prop)
    (crawl : string -> gset string -> Cont A -> Async A)
    (l p : list string) (v : gset string) (k : Cont A) :
  (forall u v k', (forall r v', returns Q (k' (Return r) v')) ->
     returns Q (crawl u v k')) ->
  (forall r v', returns Q (k (Return r) v')) ->
  returns Q (for_async crawl l p v k).
Proof.
  intros Hc Hk. revert p v. induction l as [|u l IH]; intros p v;
    cbn [for_async returns].
  - apply Hk.
  - apply Hc. intros r v'. apply IH.
Qed.

Lemma while_async_returns {A : Type} (Q : A -> Prop) (n : nat)
    (baseDomain : string) (depth : nat) :
  (forall fuel u v (k : Cont A), n <= fuel ->
     (forall r v', returns Q (k (Return r) v')) ->
     returns Q (crawlUrl_async fuel u baseDomain (depth + 1) v k)) ->
  forall j attempts fuel url v (k : Cont A),
    RETRY_LIMIT <= attempts + j -> n + j + 1 <= fuel ->
    (forall r v', returns Q (k (Return r) v')) ->
    returns Q (while_async fuel url baseDomain depth attempts v k).
Proof.
  intros Hc. induction j as [|j IH]; intros attempts [|fuel] url v k Hj Hf Hk;
    try lia; rewrite while_async_S;
    destruct (Nat.ltb_spec attempts RETRY_LIMIT); try lia; try apply Hk.
  cbn [returns]. intros [hrefs|status].
  - destruct (each_link hrefs baseDomain v [] []) as [[p i]|]; [|apply Hk].
    apply for_async_returns.
    + intros u v0 k' Hk'. apply Hc; [lia | exact Hk'].
    + intros r v'. apply Hk.
  - destruct (is_429 status); [|apply Hk].
    cbn [returns]. apply IH; [lia | lia | exact Hk].
Qed.

Lemma crawlUrl_async_returns {A : Type} (Q : A -> Prop) (m : nat) :
  forall depth fuel url baseDomain v (k : Cont A),
    S MAX_DEPTH - depth <= m -> m * (RETRY_LIMIT + 2) + 1 <= fuel ->
    (forall r v', returns Q (k (Return r) v')) ->
    returns Q (crawlUrl_async fuel url baseDomain depth v k).
Proof.
  induction m as [|m IH]; intros depth [|fuel] url baseDomain v k Hm Hf Hk;
    try lia; rewrite crawlUrl_async_S.
  - destruct (Nat.ltb_spec MAX_DEPTH depth); [apply Hk | lia].
  - destruct (_ || _); [apply Hk|]. cbn [returns].
    apply (while_async_returns Q (m * (RETRY_LIMIT + 2) + 1) baseDomain depth)
      with (j := RETRY_LIMIT); [|lia|lia|exact Hk].
    intros; apply IH; [lia | lia | assumption].
Qed.

Lemma crawlDomain_async_returns (fuel : nat) (d : string) :
  fuel_for 0 <= fuel ->
  returns (fun r => domain r = d) (crawlDomain_async fuel d).
Proof.
  intros Hf. unfold crawlDomain_async.
  apply (crawlUrl_async_returns _ (S MAX_DEPTH));
    [lia | unfold fuel_for in Hf; lia |].
  intros r v'. reflexivity.
Qed.

Lemma advance_returns {A : Type} (Q : A -> Prop) (k : Async A) (w : State P) :
  returns Q k -> task_returns Q (advance k w).1.
Proof.
  revert w. induction k as [c| |url k IH|url k IH|ms k IH]; intros w;
    cbn [returns advance].
  - exact id.
  - intros [].
  - apply IH.
  - intros H. destruct (get url w) as [o w1]. apply H.
  - exact id.
Qed.

Lemma complete_returns {A : Type} (Q : A -> Prop) (k : Async A) (w : State P) :
  returns Q k -> exists a w', complete k w = Some (Return a, w') /\ Q a.
Proof.
  revert w. induction k as [c| |url k IH|url k IH|ms k IH]; intros w;
    cbn [returns complete].
  - destruct c as [a|e]; [eauto | intros []].
  - intros [].
  - apply IH.
  - intros H. destruct (get url w) as [o w1]. apply IH, H.
  - apply IH.
Qed.

(** *** What the tasks do to the world *)

Lemma advance_trace {A : Type} (k : Async A) (w : State P) :
  exists evs, trace (advance k w).2 = trace w ++ evs.
Proof.
  revert w. induction k as [c| |url k IH|url k IH|ms k IH]; intros w;
    cbn [advance].
  - exists []. now rewrite List.app_nil_r.
  - exists []. now rewrite List.app_nil_r.
  - destruct (IH (record (EvAdd url) w)) as [evs ->].
    exists (EvAdd url :: evs). cbn [record trace]. now rewrite <- List.app_assoc.
  - unfold get. destruct (axios_get url (net w)) as [o n]. now exists [EvGet url].
  - now exists [EvDelay ms].
Qed.

Lemma complete_trace {A : Type} (k : Async A) (w : State P)
    (c : Completion A) (w' : State P) :
  complete k w = Some (c, w') -> exists evs, trace w' = trace w ++ evs.
Proof.
  revert w. induction k as [c0| |url k IH|url k IH|ms k IH]; intros w;
    cbn [complete]; try discriminate.
  - intros [= <- <-]. exists []. now rewrite List.app_nil_r.
  - intros H. apply IH in H as [evs ->].
    exists (EvAdd url :: evs). cbn [record trace]. now rewrite <- List.app_assoc.
  - unfold get. destruct (axios_get url (net w)) as [o n].
    intros H. apply IH in H as [evs ->].
    exists (EvGet url :: evs). cbn [trace]. now rewrite <- List.app_assoc.
  - intros H. apply IH in H as [evs ->].
    exists (EvDelay ms :: evs). cbn [delay trace]. now rewrite <- List.app_assoc.
Qed.

Lemma finish_trace (pool : Pool) :
  forall (w : State P) c w' ms,
    finish pool w = Some (c, w', ms) -> exists evs, trace w' = trace w ++ evs.
Proof.
  induction pool as [|[d [k|[r|e]|]] pool IH]; intros w c w' ms; cbn [finish];
    try discriminate.
  - intros [= <- <- <-]. exists []. now rewrite List.app_nil_r.
  - destruct (complete k w) as [[[r|e] w1]|] eqn:Ek; try discriminate.
    + apply complete_trace in Ek as [evs1 E1].
      destruct (finish pool w1) as [[[[rs|e] w2] ms1]|] eqn:Ef; try discriminate;
        intros [= <- <- <-]; apply IH in Ef as [evs2 ->]; rewrite E1;
        exists (evs1 ++ evs2); now rewrite List.app_assoc.
    + intros [= <- <- <-]. eapply complete_trace, Ek.
  - destruct (finish pool w) as [[[[rs|e] w2] ms1]|] eqn:Ef; try discriminate;
      intros [= <- <- <-]; eapply IH, Ef.
  - intros [= <- <- <-]. exists []. now rewrite List.app_nil_r.
Qed.

Lemma resume_trace (i : nat) (pool : Pool) (w : State P) :
  exists evs, trace (resume i pool w).1.2 = trace w ++ evs.
Proof.
  unfold resume.
  destruct (pool !! i) as [[d [k|c|]]|];
    try (exists []; now rewrite List.app_nil_r).
  pose proof (advance_trace k w) as H.
  destruct (advance k w) as [t w']. exact H.
Qed.

Lemma event_loop_trace (sched : list nat) :
  forall (pool : Pool) (w : State P) c w' ms sched',
    event_loop sched pool w = Some (c, w', ms, sched') ->
    exists evs, trace w' = trace w ++ evs.
Proof.
  induction sched as [|i sched IH]; intros pool w c w' ms sched';
    cbn [event_loop]; destruct (Promise_state pool) as [c0|];
    try (intros [= <- <- <- <-]; exists []; now rewrite List.app_nil_r).
  - destruct (finish pool w) as [[[c1 w1] ms1]|] eqn:E; [|discriminate].
    intros [= <- <- <- <-]. eapply finish_trace, E.
  - destruct (resume_trace i pool w) as [evs1 E1].
    destruct (resume i pool w) as [[pool' w1] ms1]. cbn [fst snd] in E1.
    destruct (event_loop sched pool' w1) as [[[[c1 w2] ms2] s]|] eqn:E;
      [|discriminate].
    intros [= <- <- <- <-]. apply IH in E as [evs2 ->]. rewrite E1.
    exists (evs1 ++ evs2). now rewrite List.app_assoc.
Qed.

Lemma crawlDomain_async_claims (fuel : nat) (d : string) (w : State P) :
  1 <= fuel ->
  exists evs,
    trace (advance (crawlDomain_async fuel d) w).2 = trace w ++ EvAdd d :: evs.
Proof.
  intros Hf. destruct fuel as [|fuel]; [lia|].
  unfold crawlDomain_async.
  rewrite crawlUrl_async_S. cbn [Nat.ltb Nat.leb orb].
  rewrite bool_decide_eq_false_2 by apply not_elem_of_empty.
  cbn [advance].
  destruct (advance_trace
              (while_async fuel d d 0 0 ({[d]} ∪ ∅)
                 (fun c _ =>
                    match c with
                    | Return productUrls =>
                        Done (Return {| domain := d; productUrls := productUrls |})
                    | Throw e => Done (Throw e)
                    end))
              (record (EvAdd d) w)) as [evs ->].
  exists evs. cbn [record trace]. now rewrite <- List.app_assoc.
Qed.

Lemma start_all_claims (fuel : nat) (batch : list string) :
  1 <= fuel ->
  forall w : State P, exists evs,
    trace (start_all fuel batch w).1.2 = trace w ++ evs /\
    forall d, d ∈ batch -> EvAdd d ∈ evs.
Proof.
  intros Hf. induction batch as [|d batch IH]; intros w; cbn [start_all].
  - exists []. split; [now rewrite List.app_nil_r | set_solver].
  - destruct (crawlDomain_async_claims fuel d w Hf) as [evs1 H1].
    destruct (advance (crawlDomain_async fuel d) w) as [t w1]. cbn [snd] in H1.
    destruct (IH w1) as (evs2 & H2 & Hin).
    destruct (start_all fuel batch w1) as [[pool w2] ms]. cbn [fst snd] in *.
    exists (EvAdd d :: evs1 ++ evs2). split.
    + rewrite H2, H1, <- List.app_assoc. reflexivity.
    + intros d' [->|Hd]%elem_of_cons; [set_solver|].
      specialize (Hin d' Hd). set_solver.
Qed.

(** *** The event loop *)

Lemma pool_returns_state (pool : Pool) :
  pool_returns pool ->
  rejection pool = None /\
  forall rs, fulfilled pool = Some rs ->
             map domain rs = map fst pool /\ pending pool = [].
Proof.
  induction 1 as [|[d t] pool Ht _ [IHr IHf]]; [split; [reflexivity|]|].
  - intros rs [= <-]. split; reflexivity.
  - destruct t as [k|[r|e]|]; cbn in Ht; try contradiction;
      cbn [rejection fulfilled pending]; (split; [exact IHr|]).
    + discriminate.
    + intros rs. destruct (fulfilled pool) as [rs'|]; [|discriminate].
      intros [= <-]. destruct (IHf rs' eq_refl) as [Hm Hp].
      cbn [map fst]. split; [f_equal; assumption | exact Hp].
Qed.

Lemma finish_returns (pool : Pool) :
  pool_returns pool ->
  forall w, exists rs w',
    finish pool w = Some (Return rs, w', map Ended (pending pool)) /\
    map domain rs = map fst pool.
Proof.
  induction 1 as [|[d t] pool Ht _ IH]; intros w; [exists [], w; split; reflexivity|].
  destruct t as [k|[r|e]|]; cbn in Ht; try contradiction; cbn [finish pending].
  - destruct (complete_returns _ k w Ht) as (r & w1 & -> & Hr).
    destruct (IH w1) as (rs & w' & -> & Hm).
    exists (r :: rs), w'. split; [reflexivity|]. cbn. now rewrite Hr, Hm.
  - destruct (IH w) as (rs & w' & -> & Hm).
    exists (r :: rs), w'. split; [reflexivity|]. cbn. now rewrite Ht, Hm.
Qed.

(** The domain of a task that settles when it is resumed. *)
Lemma pending_insert (pool : Pool) (i : nat) (d : string)
    (k : Async DomainResult) (t : Task DomainResult) :
  pool !! i = Some (d, Pending k) ->
  t <> Starved ->
  exists ds, ended d t = map Ended ds /\
             pending pool ≡ₚ ds ++ pending (<[i := (d, t)]> pool).
Proof.
  intros Hl Ht. revert i Hl. induction pool as [|[d0 t0] pool IH]; intros [|i] Hl;
    try discriminate.
  - injection Hl as -> ->. cbn [insert list_insert pending].
    destruct t as [k'|c|]; [exists [] | exists [d] | contradiction];
      split; reflexivity.
  - cbn in Hl. destruct (IH i Hl) as (ds & He & Hp). exists ds.
    split; [exact He|]. cbn [insert list_insert].
    change (pending ((d0, t0) :: pool) ≡ₚ
            ds ++ pending ((d0, t0) :: <[i := (d, t)]> pool)).
    destruct t0 as [k0|c0|]; cbn [pending]; try exact Hp.
    rewrite Hp. apply Permutation_middle.
Qed.

Lemma resume_returns (i : nat) (pool : Pool) (w : State P) :
  pool_returns pool ->
  exists ds, (resume i pool w).2 = map Ended ds /\
             pool_returns (resume i pool w).1.1 /\
             map fst (resume i pool w).1.1 = map fst pool /\
             pending pool ≡ₚ ds ++ pending (resume i pool w).1.1.
Proof.
  intros Hp. unfold resume.
  destruct (pool !! i) as [[d [k|c|]]|] eqn:E;
    try (exists []; repeat split; [exact Hp | reflexivity]).
  assert (Hk : returns (fun r => domain r = d) k).
  { apply (Forall_lookup_1 _ _ _ _ Hp E). }
  pose proof (advance_returns _ k w Hk) as Ht.
  destruct (advance k w) as [t w']. cbn [fst snd] in *.
  assert (Hs : t <> Starved) by (intros ->; exact Ht).
  destruct (pending_insert pool i d k t E Hs) as (ds & He & Hperm).
  exists ds. repeat split; try assumption.
  - apply Forall_insert; assumption.
  - clear -E. revert i E. induction pool as [|e pool IH]; intros [|i] E;
      try discriminate; cbn in *.
    + now injection E as ->.
    + f_equal. apply IH, E.
Qed.

Lemma event_loop_returns (sched : list nat) :
  forall (pool : Pool) (w : State P),
    pool_returns pool ->
    exists rs w' ds sched',
      event_loop sched pool w = Some (Return rs, w', map Ended ds, sched') /\
      map domain rs = map fst pool /\
      ds ≡ₚ pending pool.
Proof.
  assert (Hdone : forall sched (pool : Pool) (w : State P) rs,
            pool_returns pool -> fulfilled pool = Some rs ->
            exists rs w' ds sched',
              event_loop sched pool w = Some (Return rs, w', map Ended ds, sched') /\
              map domain rs = map fst pool /\
              ds ≡ₚ pending pool).
  { intros s pool w rs Hp Ef. destruct (pool_returns_state pool Hp) as [Hr Hf].
    destruct (Hf rs Ef) as [Hm Hn]. exists rs, w, [], s.
    destruct s; cbn [event_loop]; unfold Promise_state; rewrite Hr, Ef, Hn;
      (split; [reflexivity | split; [exact Hm | reflexivity]]). }
  induction sched as [|i sched IH]; intros pool w Hp;
    destruct (fulfilled pool) as [rs0|] eqn:Ef;
    try (eapply Hdone; eassumption);
    destruct (pool_returns_state pool Hp) as [Hr _];
    cbn [event_loop]; unfold Promise_state; rewrite Hr, Ef.
  - destruct (finish_returns pool Hp w) as (rs & w' & -> & Hm).
    exists rs, w', (pending pool), []. repeat split; [exact Hm | reflexivity].
  - destruct (resume_returns i pool w Hp) as (ds0 & He & Hp' & Hm' & Hperm).
    destruct (resume i pool w) as [[pool' w1] ms]. cbn [fst snd] in *.
    destruct (IH pool' w1 Hp') as (rs & w' & ds & sched' & -> & Hm & Hd).
    exists rs, w', (ds0 ++ ds), sched'. rewrite He, List.map_app.
    repeat split; [congruence|]. rewrite Hd. symmetry. exact Hperm.
Qed.

Lemma start_all_returns (fuel : nat) (batch : list string) :
  fuel_for 0 <= fuel ->
  forall w : State P, exists pool w1,
    start_all fuel batch w = (pool, w1, map Started batch) /\
    pool_returns pool /\ map fst pool = batch.
Proof.
  intros Hf. induction batch as [|d batch IH]; intros w; cbn [start_all].
  - exists [], w. repeat split. constructor.
  - pose proof (advance_returns _ _ w (crawlDomain_async_returns fuel d Hf)) as Ht.
    destruct (advance (crawlDomain_async fuel d) w) as [t w1]. cbn [fst] in Ht.
    destruct (IH w1) as (pool & w2 & -> & Hp & Hm).
    exists ((d, t) :: pool), w2. repeat split.
    + constructor; assumption.
    + cbn. now rewrite Hm.
Qed.

Lemma ended_at_start_returns (pool : Pool) :
  pool_returns pool ->
  exists ds, ended_at_start pool = map Ended ds /\
             ds ++ pending pool ≡ₚ map fst pool.
Proof.
  induction 1 as [|[d t] pool Ht _ (ds & He & Hp)]; [exists []; split; reflexivity|].
  destruct t as [k|c|]; cbn in Ht; try contradiction;
    cbn [ended_at_start ended pending map fst app].
  - exists ds. split; [exact He|]. rewrite <- Hp. symmetry. apply Permutation_middle.
  - exists (d :: ds). rewrite He. split; [reflexivity|]. cbn. now rewrite Hp.
Qed.

Lemma Promise_all_returns (fuel : nat) (sched : list nat) (batch : list string)
    (w : State P) :
  fuel_for 0 <= fuel ->
  exists rs w' order sched',
    Promise_all fuel sched batch w
    = Some (Return rs, w', map Started batch ++ map Ended order, sched') /\
    map domain rs = batch /\
    order ≡ₚ batch /\
    exists evs, trace w' = trace w ++ evs /\
                forall d, d ∈ batch -> EvAdd d ∈ evs.
Proof.
  intros Hf. unfold Promise_all.
  destruct (start_all_returns fuel batch Hf w) as (pool & w1 & Hs & Hp & Hm).
  destruct (start_all_claims fuel batch ltac:(unfold fuel_for in Hf; lia) w)
    as (evs1 & Ht1 & Hin).
  rewrite Hs in Ht1. cbn [fst snd] in Ht1. rewrite Hs.
  destruct (event_loop_returns sched pool w1 Hp)
    as (rs & w' & ds & sched' & He & Hr & Hd).
  destruct (event_loop_trace _ _ _ _ _ _ _ He) as [evs2 Ht2]. rewrite He.
  destruct (ended_at_start_returns pool Hp) as (ds0 & -> & Hperm).
  exists rs, w', (ds0 ++ ds), sched'. rewrite List.map_app.
  split; [reflexivity|]. split; [congruence|]. split.
  - rewrite Hd, Hperm. now rewrite Hm.
  - exists (evs1 ++ evs2). split.
    + rewrite Ht2, Ht1, <- List.app_assoc. reflexivity.
    + intros d Hd'. specialize (Hin d Hd'). set_solver.
Qed.

Lemma crawlDomains_from_S (fuel : nat) (sched : list nat)
    (domains : list string) (i : nat) (results : list DomainResult)
    (w : State P) :
  crawlDomains_from (S fuel) sched domains i results w =
  if (i <? length domains)%nat then
    match Promise_all fuel sched
            (slice i (i + PARALLEL_REQUESTS) domains) w with
    | None => None
    | Some (Throw e, w', ms, _) => Some (Throw e, w', ms)
    | Some (Return batchResults, w', ms, sched') =>
        match crawlDomains_from fuel sched' domains
                (i + PARALLEL_REQUESTS) (results ++ batchResults) w' with
        | None => None
        | Some (c, w'', ms') => Some (c, w'', ms ++ ms')
        end
    end
  else Some (Return results, w, []).
Proof. reflexivity. Qed.

Lemma crawlDomains_from_ok (domains : list string) :
  0 < PARALLEL_REQUESTS ->
  forall n i results w sched fuel,
    length domains - i <= n -> n + 1 + fuel_for 0 <= fuel ->
    exists rs w' ms,
      crawlDomains_from fuel sched domains i results w
      = Some (Return (results ++ rs), w', ms) /\
      map domain rs = drop i domains /\
      batch_timeline (batches (drop i domains)) ms /\
      exists evs, trace w' = trace w ++ evs /\
                  forall d, d ∈ drop i domains -> EvAdd d ∈ evs.
Proof.
  intros Hp. induction n as [|n IH]; intros i results w sched [|fuel] Hn Hf;
    try lia; rewrite crawlDomains_from_S;
    destruct (Nat.ltb_spec i (length domains)) as [Hlt|Hge]; try lia.
  - exists [], w, []. rewrite List.app_nil_r, drop_ge by lia.
    repeat split; [constructor|].
    exists []. split; [now rewrite List.app_nil_r | set_solver].
  - destruct (Promise_all_returns fuel sched
                (slice i (i + PARALLEL_REQUESTS) domains) w)
      as (rs1 & w1 & order & sched' & Hp1 & Hm1 & Ho & evs1 & Ht1 & Hin1); [lia|].
    rewrite Hp1.
    destruct (IH (i + PARALLEL_REQUESTS) (results ++ rs1) w1 sched' fuel)
      as (rs2 & w' & ms & -> & Hm2 & Hb & evs2 & Ht2 & Hin2); [lia|lia|].
    assert (Hslice : slice i (i + PARALLEL_REQUESTS) domains
                     = take PARALLEL_REQUESTS (drop i domains)).
    { unfold slice. f_equal. lia. }
    rewrite Hslice in Ho, Hin1.
    exists (rs1 ++ rs2), w',
      (map Started (take PARALLEL_REQUESTS (drop i domains))
       ++ map Ended order ++ ms).
    rewrite <- (List.app_assoc results), Hslice, <- List.app_assoc.
    split; [reflexivity|].
    rewrite <- drop_drop in Hm2, Hb, Hin2. split; [|split].
    + rewrite List.map_app, Hm1, Hm2, Hslice. apply take_drop.
    + rewrite batches_cons; [|assumption|].
      * constructor; assumption.
      * intros E. apply (f_equal length) in E. rewrite length_drop in E.
        cbn [length] in E. lia.
    + exists (evs1 ++ evs2). split.
      * rewrite Ht2, Ht1, <- List.app_assoc. reflexivity.
      * intros d Hd.
        rewrite <- (take_drop PARALLEL_REQUESTS (drop i domains)) in Hd.
        apply elem_of_app in Hd as [Hd|Hd];
          [specialize (Hin1 d Hd) | specialize (Hin2 d Hd)]; set_solver.
  - exists [], w, []. rewrite List.app_nil_r, drop_ge by lia.
    repeat split; [constructor|].
    exists []. split; [now rewrite List.app_nil_r | set_solver].
Qed.


End Properties.

(* ===================================================================== *)
(** ** The classifier and the validity check *)
(* ===================================================================== *)

(** C6 (classifier), as the code has it.  [isProductUrl] answers [true]
    exactly when the string it is given, the whole absolute URL, holds one
    of the patterns of [PRODUCT_PATTERNS] ([/product/], [/item/], [/p/]); it
    is a function of that string alone. *)
Theorem isProductUrl_whole_url (url : string) :
  isProductUrl url = true <->
  exists pattern, In pattern PRODUCT_PATTERNS /\
    exists pre post, url = pre +:+ pattern +:+ post.
Proof.
  unfold isProductUrl, RegExp_test. rewrite existsb_exists.
  split; intros (pattern & Hin & H); exists pattern; (split; [exact Hin|]);
    apply StrFacts.includes_spec; exact H.
Qed.

(** C6, the claim as stated, fails: a URL whose path is [/search] is
    classified as a product because its query holds [/item/]. *)
Lemma isProductUrl_not_by_path :
  exists url u,
    NodeURL.parse_absolute url = Some u /\ href u = url /\
    pathname u = "/search" /\
    isProductUrl url = true /\ classify_by_path u = false.
Proof.
  exists "https://example1.com/search?q=/item/". eexists.
  split; [reflexivity|]. repeat split.
Qed.

(** C2 (validity check), at a link of the site itself: [/about] resolves
    against [https://example1.com] to a URL of the very host of the target
    domain, and [isValidUrl] answers [false], since it looks for the whole
    base location, scheme included, inside the host name. *)
Theorem isValidUrl_rejects_same_host :
  same_host (P:=static_site scenario_site) "/about" "https://example1.com" = true /\
  (exists u, NodeURL.new_URL "/about" "https://example1.com" = Some u /\
             hostname u = "example1.com") /\
  isValidUrl (P:=static_site scenario_site) "/about" "https://example1.com" = false.
Proof.
  split; [reflexivity|]. split; [|reflexivity].
  eexists. split; reflexivity.
Qed.

(** With the model resolver the link scan keeps nothing ... *)
Lemma each_link_static (cfg : Config) (site : string -> Outcome)
    (hrefs : list string) (baseDomain : string) (visited : gset string)
    (productUrls internalUrls : list string) :
  each_link (P:=static_site site) hrefs baseDomain visited productUrls internalUrls
  = Some (productUrls, internalUrls).
Proof.
  induction hrefs as [|link rest IH]; simpl; [reflexivity|].
  now rewrite NodeURLFacts.isValidUrl_never.
Qed.

(** ... and so the retry loop and [crawlUrl] return nothing but the empty
    list, on every site. *)
Lemma while_attempts_static (cfg : Config) (site : string -> Outcome) (fuel : nat)
    (url baseDomain : string) (depth attempts : nat)
    (w : State (static_site site)) (c : Completion (list string))
    (w' : State (static_site site)) :
  while_attempts fuel url baseDomain depth attempts w = Some (c, w') ->
  c = Return [].
Proof.
  revert attempts w. induction fuel as [|fuel IH]; intros attempts w;
    [discriminate|].
  rewrite while_attempts_S. destruct (attempts <? RETRY_LIMIT)%nat; [|congruence].
  unfold try_block. destruct (get url w) as [[hrefs|status] w1].
  - rewrite each_link_static by exact cfg. simpl. congruence.
  - destruct (is_429 status); [apply IH | congruence].
Qed.

Lemma crawlUrl_static (cfg : Config) (site : string -> Outcome) (fuel : nat)
    (url baseDomain : string) (depth : nat)
    (w : State (static_site site)) (c : Completion (list string))
    (w' : State (static_site site)) :
  crawlUrl fuel url baseDomain depth w = Some (c, w') -> c = Return [].
Proof.
  destruct fuel as [|fuel]; [discriminate|]. rewrite crawlUrl_S.
  destruct (_ || _); [congruence | apply while_attempts_static].
Qed.

(** C8 (scenario).  The root links to [/product/42] and to [/about], which
    links to [/product/99]; [MAX_DEPTH] is 2.  The crawl of the domain
    requests the root and nothing else, and returns no product URL. *)
Theorem scenario_finds_no_product :
  scenario_site "https://example1.com" = Resolved ["/product/42"; "/about"] /\
  scenario_site "https://example1.com/about" = Resolved ["/product/99"] /\
  observe (crawlDomain (cfg:=scenario_config) (P:=static_site scenario_site) 20
             "https://example1.com" (start (static_site scenario_site) tt))
  = Some (Return {| domain := "https://example1.com"; productUrls := [] |},
          [EvAdd "https://example1.com"; EvGet "https://example1.com"]).
Proof.
  split; [reflexivity|]. split; [reflexivity|]. vm_compute. reflexivity.
Qed.

(** C1 (depth boundary).  On the chain root -> [/a] -> [/b] ->
    [/product/7] every page answers, and the product link stands at depth
    3, the default [MAX_DEPTH]; the crawl returns no product URL. *)
Theorem boundary_product_missing :
  chain_site "https://example1.com" = Resolved ["/a"] /\
  chain_site "https://example1.com/a" = Resolved ["/b"] /\
  chain_site "https://example1.com/b" = Resolved ["/product/7"] /\
  isProductUrl "https://example1.com/product/7" = true /\
  observe (crawlDomain (cfg:=defaults) (P:=static_site chain_site) 30
             "https://example1.com" (start (static_site chain_site) tt))
  = Some (Return {| domain := "https://example1.com"; productUrls := [] |},
          [EvAdd "https://example1.com"; EvGet "https://example1.com"]).
Proof.
  repeat (split; [reflexivity|]). vm_compute. reflexivity.
Qed.

(* ===================================================================== *)
(** ** The engine with links that pass the validity check *)
(* ===================================================================== *)

(** Under the stand-in resolver the scenario yields both products. *)
Example lenient_scenario :
  observe (crawlDomain (cfg:=scenario_config) (P:=lenient_site scenario_site) 20
             "https://example1.com" (start (lenient_site scenario_site) tt))
  = Some (Return {| domain := "https://example1.com";
                    productUrls := ["https://example1.com/product/42";
                                    "https://example1.com/product/99"] |},
          [EvAdd "https://example1.com"; EvGet "https://example1.com";
           EvDelay 1000;
           EvAdd "https://example1.com/about"; EvGet "https://example1.com/about"]).
Proof. vm_compute. reflexivity. Qed.

(** The guard [depth > MAX_DEPTH] lets the page at depth [MAX_DEPTH] be
    fetched, and its product links, one level deeper, are kept without a
    request: with [MAX_DEPTH = 2] the product of the chain, at depth 3, is
    returned; with [MAX_DEPTH = 1] it is not. *)
Example lenient_boundary :
  fst <$> observe (crawlDomain (cfg:=scenario_config) (P:=lenient_site chain_site) 20
                     "https://example1.com" (start (lenient_site chain_site) tt))
  = Some (Return {| domain := "https://example1.com";
                    productUrls := ["https://example1.com/product/7"] |}) /\
  fst <$> observe (crawlDomain (cfg:=mkConfig 1 3 5 1000) (P:=lenient_site chain_site) 20
                     "https://example1.com" (start (lenient_site chain_site) tt))
  = Some (Return {| domain := "https://example1.com"; productUrls := [] |}).
Proof. split; vm_compute; reflexivity. Qed.

(** A page that links to itself and to its parent is requested once.  (The
    link to the root resolves to the root with a final ["/"], another
    string than the one the crawl started from, and is requested as such.) *)
Example lenient_cycle :
  observe (crawlDomain (cfg:=defaults) (P:=lenient_site cyclic_site) 30
             "https://example1.com" (start (lenient_site cyclic_site) tt))
  = Some (Return {| domain := "https://example1.com";
                    productUrls := ["https://example1.com/product/1"] |},
          [EvAdd "https://example1.com"; EvGet "https://example1.com";
           EvDelay 1000;
           EvAdd "https://example1.com/loop"; EvGet "https://example1.com/loop";
           EvDelay 1000;
           EvAdd "https://example1.com/"; EvGet "https://example1.com/";
           EvDelay 1000]).
Proof. vm_compute. reflexivity. Qed.

(* ===================================================================== *)
(** ** The theorems at work *)
(* ===================================================================== *)

Lemma crawl_terminates_witness :
  exists r w',
    crawlUrl (cfg:=defaults) (P:=lenient_site cyclic_site) 30
      "https://example1.com" "https://example1.com" 0
      (start (lenient_site cyclic_site) tt)
    = Some (Return r, w').
Proof.
  destruct (crawl_terminates (cfg:=defaults) (P:=lenient_site cyclic_site)
              "https://example1.com" "https://example1.com" 0
              (start (lenient_site cyclic_site) tt)) as (r & w' & H).
  exists r, w'. apply H. vm_compute. lia.
Defined.

Lemma rate_limited_retry_bound_witness :
  exists w',
    crawlUrl (cfg:=defaults) (P:=static_site busy_site) 5
      "https://example1.com" "https://example1.com" 0
      (start (static_site busy_site) tt)
    = Some (Return [], w') /\
    trace w' = [EvAdd "https://example1.com";
                EvGet "https://example1.com"; EvDelay 3000;
                EvGet "https://example1.com"; EvDelay 3000;
                EvGet "https://example1.com"; EvDelay 3000].
Proof.
  destruct (rate_limited_retry_bound (cfg:=defaults) (P:=static_site busy_site) 5
              "https://example1.com" "https://example1.com" 0
              (start (static_site busy_site) tt))
    as (w' & evs & H1 & H2 & H3 & _).
  - simpl. lia.
  - apply not_elem_of_empty.
  - reflexivity.
  - simpl. lia.
  - exists w'. split; [exact H1|]. rewrite H2, H3. reflexivity.
Defined.


Lemma visited_after_failure_witness :
  exists w' : State (static_site silent_site),
    "https://example1.com" ∈ visitedUrls w' /\
    forall fuel2 depth2 w2,
      visitedUrls w' ⊆ visitedUrls w2 ->
      crawlUrl (cfg:=defaults) (P:=static_site silent_site) (S fuel2)
        "https://example1.com" "https://example1.com" depth2 w2
      = Some (Return [], w2).
Proof.
  destruct (crawlUrl_total (cfg:=defaults) (P:=static_site silent_site) 4 0
              (fuel_for (cfg:=defaults) 0)
              "https://example1.com" "https://example1.com"
              (start (static_site silent_site) tt)) as (r & w' & H);
    [simpl; lia | vm_compute; lia |].
  exists w'.
  apply (visited_after_failure (cfg:=defaults) (P:=static_site silent_site)
           (fuel_for (cfg:=defaults) 0) "https://example1.com" "https://example1.com" 0
           (start (static_site silent_site) tt) (Return r) w').
  - simpl. lia.
  - exact H.
Defined.

Lemma visited_set_discipline_witness :
  exists (w' : State (lenient_site cyclic_site)) evs,
    trace w' = evs /\
    forall u,
      List.filter (about u) evs = [] \/
      (u ∈ visitedUrls w') /\
      exists k, k <= 3 /\ List.filter (about u) evs = EvAdd u :: repeat (EvGet u) k.
Proof.
  destruct (crawlUrl_total (cfg:=defaults) (P:=lenient_site cyclic_site) 4 0
              (fuel_for (cfg:=defaults) 0)
              "https://example1.com" "https://example1.com"
              (start (lenient_site cyclic_site) tt)) as (r & w' & H);
    [simpl; lia | vm_compute; lia |].
  destruct (visited_set_discipline (cfg:=defaults) (P:=lenient_site cyclic_site)
              (fuel_for (cfg:=defaults) 0) "https://example1.com" "https://example1.com" 0
              (start (lenient_site cyclic_site) tt) (Return r) w')
    as (_ & evs & T & U).
  - exact H.
  - exists w', evs. split; [exact T|]. intros u. apply U.
Defined.


(** A third task started before the two tasks of the first batch have
    ended is no run by batches of two. *)
Example batch_timeline_tells :
  ~ batch_timeline
      [["https://example1.com"; "https://example2.com"]; ["https://example3.com"]]
      [Started "https://example1.com"; Started "https://example2.com";
       Started "https://example3.com"; Ended "https://example1.com";
       Ended "https://example2.com"; Ended "https://example3.com"].
Proof.
  intros H. inversion H as [|batch order rest ms Hperm Hrest Eb Et]; subst.
  apply Permutation_length in Hperm.
  destruct order as [|x [|y [|z order]]]; cbn in *; discriminate.
Qed.

(* ===================================================================== *)
(** ** The link scan *)
(* ===================================================================== *)

Section Scan.

Context {cfg : Config} {P : Platform}.

Lemma Set_add_elem (x u : string) (s : list string) :
  u ∈ Set_add x s <-> u = x \/ u ∈ s.
Proof.
  unfold Set_add. case_bool_decide as H.
  - split; [auto|]. intros [->|]; assumption.
  - rewrite elem_of_app, list_elem_of_singleton. tauto.
Qed.

Lemma Set_add_NoDup (x : string) (s : list string) :
  NoDup s -> NoDup (Set_add x s).
Proof.
  intros Hs. unfold Set_add. case_bool_decide as H; [assumption|].
  apply NoDup_app. split; [assumption|]. split.
  - intros y Hy Hx. apply list_elem_of_singleton in Hx. congruence.
  - apply NoDup_singleton.
Qed.

Lemma add_all_elem (child p : list string) (u : string) :
  u ∈ add_all child p <-> u ∈ child \/ u ∈ p.
Proof.
  unfold add_all. revert p. induction child as [|x child IH]; intros p; simpl.
  - rewrite elem_of_nil. tauto.
  - rewrite IH, Set_add_elem, elem_of_cons. tauto.
Qed.

Lemma add_all_NoDup (child p : list string) :
  NoDup p -> NoDup (add_all child p).
Proof.
  unfold add_all. revert p. induction child as [|x child IH]; intros p Hp; simpl.
  - assumption.
  - apply IH, Set_add_NoDup, Hp.
Qed.

Lemma isValidUrl_resolves (link baseDomain : string) :
  isValidUrl link baseDomain = true -> exists u, new_URL link baseDomain = Some u.
Proof.
  unfold isValidUrl. destruct (new_URL link baseDomain) as [u|]; [eauto|discriminate].
Qed.

Lemma resolved_from_nil (baseDomain u : string) :
  ~ resolved_from [] baseDomain u.
Proof. intros (link & U & Hin & _). apply elem_of_nil in Hin. exact Hin. Qed.

Lemma resolved_from_valid (link : string) (rest : list string)
    (baseDomain : string) (U : URL) (u : string) :
  isValidUrl link baseDomain = true -> new_URL link baseDomain = Some U ->
  resolved_from (link :: rest) baseDomain u <->
  u = href U \/ resolved_from rest baseDomain u.
Proof.
  intros V E. split.
  - intros (l & U' & Hin & V' & E' & <-). apply elem_of_cons in Hin as [->|Hin].
    + left. congruence.
    + right. exists l, U'. auto.
  - intros [->|(l & U' & Hin & V' & E' & <-)].
    + exists link, U. rewrite elem_of_cons. auto.
    + exists l, U'. rewrite elem_of_cons. auto.
Qed.

Lemma resolved_from_invalid (link : string) (rest : list string)
    (baseDomain u : string) :
  isValidUrl link baseDomain = false ->
  resolved_from (link :: rest) baseDomain u <-> resolved_from rest baseDomain u.
Proof.
  intros V. split.
  - intros (l & U' & Hin & V' & E' & <-). apply elem_of_cons in Hin as [->|Hin].
    + congruence.
    + exists l, U'. auto.
  - intros (l & U' & Hin & V' & E' & <-).
    exists l, U'. rewrite elem_of_cons. auto.
Qed.

(** The scan from any accumulators: it ends, and what it adds. *)
Lemma each_link_acc (hrefs : list string) (baseDomain : string)
    (visited : gset string) (p i : list string) :
  exists p' i',
    each_link hrefs baseDomain visited p i = Some (p', i') /\
    (forall u, u ∈ p' <->
       u ∈ p \/ (resolved_from hrefs baseDomain u /\ isProductUrl u = true)) /\
    (forall u, u ∈ i' <->
       u ∈ i \/ (resolved_from hrefs baseDomain u /\ isProductUrl u = false /\
                 u ∉ visited)) /\
    (NoDup p -> NoDup p').
Proof.
  revert p i. induction hrefs as [|link rest IH]; intros p i.
  - exists p, i. split; [reflexivity|].
    pose proof (resolved_from_nil baseDomain) as Hnil.
    repeat split; try tauto; intros [?|[? ?]]; try assumption; exfalso; eapply Hnil; eauto.
  - cbn [each_link]. destruct (isValidUrl link baseDomain) eqn:V.
    + destruct (isValidUrl_resolves _ _ V) as [U E]. rewrite E. cbv zeta.
      pose proof (resolved_from_valid link rest baseDomain U) as R.
      destruct (isProductUrl (href U)) eqn:Pu.
      * destruct (IH (Set_add (href U) p) i) as (p' & i' & -> & Hp & Hi & Hn).
        exists p', i'. split; [reflexivity|]. split; [|split].
        -- intros u. rewrite Hp, Set_add_elem, (R u V E).
           split; [intros [[->|?]|[? ?]]|intros [?|[[->|?] ?]]]; auto.
        -- intros u. rewrite Hi, (R u V E).
           split; [intros [?|(? & ? & ?)]|intros [?|([->|?] & ? & ?)]]; auto.
           congruence.
        -- intros Hnd. apply Hn, Set_add_NoDup, Hnd.
      * case_bool_decide as Hv; cbn [negb].
        -- destruct (IH p i) as (p' & i' & -> & Hp & Hi & Hn).
           exists p', i'. split; [reflexivity|]. split; [|split; [|exact Hn]].
           ++ intros u. rewrite Hp, (R u V E).
              split; [intros [?|[? ?]]|intros [?|[[->|?] ?]]]; auto. congruence.
           ++ intros u. rewrite Hi, (R u V E).
              split; [intros [?|(? & ? & ?)]|intros [?|([->|?] & ? & ?)]]; auto.
              contradiction.
        -- destruct (IH p (i ++ [href U])) as (p' & i' & -> & Hp & Hi & Hn).
           exists p', i'. split; [reflexivity|]. split; [|split; [|exact Hn]].
           ++ intros u. rewrite Hp, (R u V E).
              split; [intros [?|[? ?]]|intros [?|[[->|?] ?]]]; auto. congruence.
           ++ intros u. rewrite Hi, elem_of_app, list_elem_of_singleton, (R u V E).
              split; [intros [[?| ->]|(? & ? & ?)]|intros [?|([->|?] & ? & ?)]]; auto.
    + destruct (IH p i) as (p' & i' & -> & Hp & Hi & Hn).
      pose proof (fun u => resolved_from_invalid link rest baseDomain u V) as R.
      exists p', i'. split; [reflexivity|]. split; [|split; [|exact Hn]].
      * intros u. rewrite Hp, R. reflexivity.
      * intros u. rewrite Hi, R. reflexivity.
Qed.

(** X1 (the link scan).  Whatever the links of the page and the resolver,
    the callback of [.each] lets no exception out: the second
    [new URL(link, baseDomain)] is only reached for a link that the same
    constructor has just resolved inside [isValidUrl].  The scan returns as
    product URLs exactly the resolutions of the valid links that
    [isProductUrl] accepts, each once; and as internal URLs exactly the
    resolutions of the valid links that it refuses and that were not
    visited when the page was scanned. *)
Theorem each_link_keeps (hrefs : list string) (baseDomain : string)
    (visited : gset string) :
  exists productUrls internalUrls,
    each_link hrefs baseDomain visited [] [] = Some (productUrls, internalUrls) /\
    NoDup productUrls /\
    (forall u, u ∈ productUrls <->
       resolved_from hrefs baseDomain u /\ isProductUrl u = true) /\
    (forall u, u ∈ internalUrls <->
       resolved_from hrefs baseDomain u /\ isProductUrl u = false /\ u ∉ visited).
Proof.
  destruct (each_link_acc hrefs baseDomain visited [] [])
    as (p' & i' & E & Hp & Hi & Hn).
  exists p', i'. split; [exact E|].
  split; [apply Hn, NoDup_nil_2|]. split; intros u.
  - rewrite Hp, elem_of_nil. tauto.
  - rewrite Hi, elem_of_nil. tauto.
Qed.

End Scan.

(* ===================================================================== *)
(** ** The runs of crawlUrl, rule by rule *)
(* ===================================================================== *)

Section Exec.

Context {cfg : Config} {P : Platform}.

Lemma for_internalUrls_exec (baseDomain : string) (depth : nat)
    (crawl : string -> State P -> option (Completion (list string) * State P))
    (l p : list string) (w : State P) (c : Completion (list string)) (w' : State P) :
  (forall u w c w', crawl u w = Some (c, w') ->
     exists r, c = Return r /\ exec baseDomain (Call u (depth + 1)) w r w') ->
  for_internalUrls crawl l p w = Some (c, w') ->
  exists r, c = Return r /\ exec baseDomain (For depth l p) w r w'.
Proof.
  intros H. revert p w. induction l as [|u l IH]; intros p w; cbn [for_internalUrls].
  - intros [= <- <-]. exists p. split; [reflexivity | constructor].
  - destruct (crawl u (delay DELAY_BETWEEN_REQUESTS w)) as [[c1 w1]|] eqn:E;
      [|discriminate].
    destruct (H _ _ _ _ E) as (r1 & -> & X1).
    intros Hrest. destruct (IH _ _ Hrest) as (r & -> & X2).
    exists r. split; [reflexivity|]. econstructor; eassumption.
Qed.

Lemma exec_of_both (fuel : nat) :
  (forall url baseDomain depth w c w',
     crawlUrl fuel url baseDomain depth w = Some (c, w') ->
     exists r, c = Return r /\ exec baseDomain (Call url depth) w r w') /\
  (forall url baseDomain depth attempts w c w',
     while_attempts fuel url baseDomain depth attempts w = Some (c, w') ->
     exists r, c = Return r /\ exec baseDomain (Loop url depth attempts) w r w').
Proof.
  induction fuel as [|fuel [IHc IHw]]; [split; intros; discriminate|].
  split.
  - intros url baseDomain depth w c w'. rewrite crawlUrl_S.
    destruct (_ || _) eqn:G.
    + intros [= <- <-]. exists []. split; [reflexivity | now constructor].
    + intros Hw. apply IHw in Hw as (r & -> & X).
      exists r. split; [reflexivity | now apply exec_enter].
  - intros url baseDomain depth attempts w c w'. rewrite while_attempts_S.
    destruct (Nat.ltb_spec attempts RETRY_LIMIT) as [Hlt|Hge].
    2:{ intros [= <- <-]. exists []. split; [reflexivity | now constructor]. }
    unfold try_block. destruct (get url w) as [[hrefs|status] w1] eqn:G.
    + destruct (each_link hrefs baseDomain (visitedUrls w1) [] [])
        as [[p i]|] eqn:E.
      * destruct (for_internalUrls _ i p w1) as [[c1 w2]|] eqn:F; [|discriminate].
        apply (for_internalUrls_exec baseDomain depth) in F as (r & -> & X);
          [|intros; eapply IHc; eassumption].
        intros [= <- <-]. exists r. split; [reflexivity|].
        eapply exec_page; eassumption.
      * cbn [is_429]. intros [= <- <-]. exists []. split; [reflexivity|].
        eapply exec_scan_throws; eassumption.
    + destruct (is_429 status) eqn:S.
      * intros Hw. apply IHw in Hw as (r & -> & X).
        exists r. split; [reflexivity|]. eapply exec_retry; eassumption.
      * intros [= <- <-]. exists []. split; [reflexivity|].
        eapply exec_failed; eassumption.
Qed.

(** Every run of [crawlUrl] that returns is a run by the rules. *)
Lemma crawlUrl_exec (fuel : nat) (url baseDomain : string) (depth : nat)
    (w : State P) (c : Completion (list string)) (w' : State P) :
  crawlUrl fuel url baseDomain depth w = Some (c, w') ->
  exists r, c = Return r /\ exec baseDomain (Call url depth) w r w'.
Proof. apply (proj1 (exec_of_both fuel)). Qed.

(** *** What is returned *)

Lemma resolved_valid_target (hrefs : list string) (baseDomain u : string) :
  resolved_from hrefs baseDomain u -> valid_target baseDomain u.
Proof. intros (l & U & _ & H). exists l, U. exact H. Qed.

Lemma product_set_nil (baseDomain : string) : product_set baseDomain [].
Proof. split; [apply NoDup_nil_2|]. intros u Hu. apply elem_of_nil in Hu. contradiction. Qed.

Lemma product_set_add_all (baseDomain : string) (child p : list string) :
  product_set baseDomain child -> product_set baseDomain p ->
  product_set baseDomain (add_all child p).
Proof.
  intros [_ Hc] [Np Hp]. split; [apply add_all_NoDup, Np|].
  intros u Hu. apply add_all_elem in Hu as [Hu|Hu]; auto.
Qed.

Lemma product_set_scan (hrefs : list string) (baseDomain : string)
    (visited : gset string) (p i : list string) :
  each_link hrefs baseDomain visited [] [] = Some (p, i) ->
  product_set baseDomain p.
Proof.
  intros E. destruct (each_link_acc hrefs baseDomain visited [] [])
    as (p' & i' & E' & Hp & _ & Hn).
  rewrite E in E'. injection E' as <- <-.
  split; [apply Hn, NoDup_nil_2|].
  intros u Hu. apply Hp in Hu as [Hu|[Hr Hprod]].
  - apply elem_of_nil in Hu. contradiction.
  - split; [exact Hprod | eapply resolved_valid_target, Hr].
Qed.

Lemma exec_product_set (baseDomain : string) (ph : Phase) (w : State P)
    (r : list string) (w' : State P) :
  exec baseDomain ph w r w' ->
  match ph with
  | For _ _ p => product_set baseDomain p -> product_set baseDomain r
  | _ => product_set baseDomain r
  end.
Proof.
  induction 1; try apply product_set_nil; try assumption.
  - apply IHexec. eapply product_set_scan; eassumption.
  - auto.
  - intros Hp. apply IHexec2, product_set_add_all; assumption.
Qed.

(** X2 (no duplicates).  The list that [crawlUrl] returns holds no URL
    twice, whatever the pages and however often they link to a product. *)
Theorem crawlUrl_returns_no_duplicate (fuel : nat) (url baseDomain : string)
    (depth : nat) (w : State P) (c : Completion (list string)) (w' : State P) :
  crawlUrl fuel url baseDomain depth w = Some (c, w') ->
  exists r, c = Return r /\ NoDup r.
Proof.
  intros H. apply crawlUrl_exec in H as (r & -> & X).
  exists r. split; [reflexivity|]. apply (exec_product_set _ _ _ _ _ X).
Qed.

(** X3 (only products).  Every URL that [crawlUrl] returns is accepted by
    [isProductUrl], and is the resolution against [baseDomain] of a link
    that [isValidUrl] accepted. *)
Theorem crawlUrl_returns_products (fuel : nat) (url baseDomain : string)
    (depth : nat) (w : State P) (c : Completion (list string)) (w' : State P) :
  crawlUrl fuel url baseDomain depth w = Some (c, w') ->
  exists r, c = Return r /\
    forall u, u ∈ r ->
      isProductUrl u = true /\
      exists link parsedUrl,
        isValidUrl link baseDomain = true /\
        new_URL link baseDomain = Some parsedUrl /\ href parsedUrl = u.
Proof.
  intros H. apply crawlUrl_exec in H as (r & -> & X).
  exists r. split; [reflexivity|]. apply (exec_product_set _ _ _ _ _ X).
Qed.

(** *** What is requested, and when *)

Lemma get_inv (url : string) (w : State P) (o : Outcome) (w1 : State P) :
  get url w = (o, w1) ->
  trace w1 = trace w ++ [EvGet url] /\ visitedUrls w1 = visitedUrls w /\
  o = fst (axios_get url (net w)) /\ net w1 = snd (axios_get url (net w)).
Proof.
  unfold get. destruct (axios_get url (net w)) as [o' n]. intros [= <- <-]. auto.
Qed.

Lemma spaced_app (b : bool) (e1 e2 : list Event) :
  spaced b e1 = true -> (forall b', spaced b' e2 = true) ->
  spaced b (e1 ++ e2) = true.
Proof.
  intros H1 H2. revert b H1. induction e1 as [|[u|u|ms] e1 IH]; intros b H1;
    cbn [spaced app] in *; auto.
  apply andb_true_iff in H1 as [-> H1]. cbn [andb]. auto.
Qed.

Lemma spaced_no_delay (mid : list Event) (v : string) (post : list Event) :
  spaced false (mid ++ EvGet v :: post) = true -> exists ms, EvDelay ms ∈ mid.
Proof.
  induction mid as [|[u|u|ms] mid IH]; cbn [spaced app andb]; try discriminate.
  - intros H. destruct (IH H) as [ms Hms]. exists ms. now apply list_elem_of_further.
  - intros _. exists ms. apply list_elem_of_here.
Qed.

Lemma spaced_between (b : bool) (pre : list Event) (u : string)
    (mid : list Event) (v : string) (post : list Event) :
  spaced b (pre ++ EvGet u :: mid ++ EvGet v :: post) = true ->
  exists ms, EvDelay ms ∈ mid.
Proof.
  revert b. induction pre as [|[x|x|ms] pre IH]; intros b; cbn [spaced app].
  - intros H. apply andb_true_iff in H as [_ H]. eapply spaced_no_delay, H.
  - apply IH.
  - intros H. apply andb_true_iff in H as [_ H]. eapply IH, H.
  - apply IH.
Qed.

Lemma exec_spaced (baseDomain : string) (ph : Phase) (w : State P)
    (r : list string) (w' : State P) :
  exec baseDomain ph w r w' ->
  exists evs, trace w' = trace w ++ evs /\
    match ph with
    | For _ _ _ => forall b, spaced b evs = true
    | _ => spaced true evs = true
    end.
Proof.
  induction 1 as
    [ url depth w G
    | url depth w r w' G X (evs & T & S)
    | url depth a w Ha
    | url depth a w status w1 r w' Ha G S429 X (evs & T & S)
    | url depth a w status w1 Ha G S429
    | url depth a w hrefs w1 Ha G E
    | url depth a w hrefs w1 p i r w' Ha G E X (evs & T & S)
    | depth p w
    | depth u rest p w child w1 r w' X1 (e1 & T1 & S1) X2 (e2 & T2 & S2) ].
  - exists []. split; [symmetry; apply List.app_nil_r | reflexivity].
  - exists (EvAdd url :: evs). split; [|exact S].
    rewrite T. cbn [trace visitedUrls_add]. now rewrite <- List.app_assoc.
  - exists []. split; [symmetry; apply List.app_nil_r | reflexivity].
  - apply get_inv in G as (Tg & _). exists (EvGet url :: EvDelay 3000 :: evs).
    split; [|exact S]. rewrite T. cbn [trace delay]. rewrite Tg.
    now rewrite <- !List.app_assoc.
  - apply get_inv in G as (Tg & _). exists [EvGet url]. split; [exact Tg | reflexivity].
  - apply get_inv in G as (Tg & _). exists [EvGet url]. split; [exact Tg | reflexivity].
  - apply get_inv in G as (Tg & _). exists (EvGet url :: evs).
    split; [|cbn [spaced andb]; apply S]. rewrite T, Tg. now rewrite <- List.app_assoc.
  - exists []. split; [symmetry; apply List.app_nil_r | reflexivity].
  - exists (EvDelay DELAY_BETWEEN_REQUESTS :: e1 ++ e2). split.
    + rewrite T2, T1. cbn [trace delay]. now rewrite <- !List.app_assoc.
    + intros b. cbn [spaced]. apply spaced_app; assumption.
Qed.

(** X4 (throttling).  In the events of a run of [crawlUrl], between any two
    requests there is a [delay]: the 3000 ms cooldown before a retry, or the
    [DELAY_BETWEEN_REQUESTS] wait before a child is crawled. *)
Theorem crawlUrl_requests_spaced (fuel : nat) (url baseDomain : string)
    (depth : nat) (w : State P) (c : Completion (list string)) (w' : State P) :
  crawlUrl fuel url baseDomain depth w = Some (c, w') ->
  exists evs, trace w' = trace w ++ evs /\
    forall pre u mid v post,
      evs = pre ++ EvGet u :: mid ++ EvGet v :: post ->
      exists ms, EvDelay ms ∈ mid.
Proof.
  intros H. apply crawlUrl_exec in H as (r & -> & X).
  apply exec_spaced in X as (evs & T & S).
  exists evs. split; [exact T|]. intros pre u mid v post ->.
  eapply spaced_between, S.
Qed.

Lemma internal_scan (hrefs : list string) (baseDomain : string)
    (visited : gset string) (p i : list string) :
  each_link hrefs baseDomain visited [] [] = Some (p, i) ->
  forall u, u ∈ i -> internal_target baseDomain u.
Proof.
  intros E. destruct (each_link_acc hrefs baseDomain visited [] [])
    as (p' & i' & E' & _ & Hi & _).
  rewrite E in E'. injection E' as <- <-.
  intros u Hu. apply Hi in Hu as [Hu|(Hr & Hprod & _)].
  - apply elem_of_nil in Hu. contradiction.
  - split; [exact Hprod | eapply resolved_valid_target, Hr].
Qed.

Lemma exec_requests (baseDomain : string) (ph : Phase) (w : State P)
    (r : list string) (w' : State P) :
  exec baseDomain ph w r w' ->
  exists evs, trace w' = trace w ++ evs /\
    match ph with
    | Call url _ | Loop url _ _ =>
        forall u e, e ∈ evs -> names u e ->
          u = url \/ internal_target baseDomain u
    | For _ i _ =>
        (forall u, u ∈ i -> internal_target baseDomain u) ->
        forall u e, e ∈ evs -> names u e -> internal_target baseDomain u
    end.
Proof.
  induction 1 as
    [ url depth w G
    | url depth w r w' G X (evs & T & S)
    | url depth a w Ha
    | url depth a w status w1 r w' Ha G S429 X (evs & T & S)
    | url depth a w status w1 Ha G S429
    | url depth a w hrefs w1 Ha G E
    | url depth a w hrefs w1 p i r w' Ha G E X (evs & T & S)
    | depth p w
    | depth u rest p w child w1 r w' X1 (e1 & T1 & S1) X2 (e2 & T2 & S2) ].
  - exists []. split; [symmetry; apply List.app_nil_r|].
    intros u e He. apply elem_of_nil in He. contradiction.
  - exists (EvAdd url :: evs). split.
    { rewrite T. cbn [trace visitedUrls_add]. now rewrite <- List.app_assoc. }
    intros u e He Hn. apply elem_of_cons in He as [->|He]; [|eauto].
    left. destruct Hn as [Hn|Hn]; congruence.
  - exists []. split; [symmetry; apply List.app_nil_r|].
    intros u e He. apply elem_of_nil in He. contradiction.
  - apply get_inv in G as (Tg & _). exists (EvGet url :: EvDelay 3000 :: evs). split.
    { rewrite T. cbn [trace delay]. rewrite Tg. now rewrite <- !List.app_assoc. }
    intros u e He Hn. apply elem_of_cons in He as [->|He].
    { left. destruct Hn as [Hn|Hn]; congruence. }
    apply elem_of_cons in He as [->|He]; [|eauto].
    destruct Hn as [Hn|Hn]; discriminate.
  - apply get_inv in G as (Tg & _). exists [EvGet url]. split; [exact Tg|].
    intros u e He Hn. apply list_elem_of_singleton in He as ->.
    left. destruct Hn as [Hn|Hn]; congruence.
  - apply get_inv in G as (Tg & _). exists [EvGet url]. split; [exact Tg|].
    intros u e He Hn. apply list_elem_of_singleton in He as ->.
    left. destruct Hn as [Hn|Hn]; congruence.
  - apply get_inv in G as (Tg & _). exists (EvGet url :: evs). split.
    { rewrite T, Tg. now rewrite <- List.app_assoc. }
    intros u e He Hn. apply elem_of_cons in He as [->|He].
    { left. destruct Hn as [Hn|Hn]; congruence. }
    right. eapply S; eauto. eapply internal_scan, E.
  - exists []. split; [symmetry; apply List.app_nil_r|].
    intros _ u e He. apply elem_of_nil in He. contradiction.
  - exists (EvDelay DELAY_BETWEEN_REQUESTS :: e1 ++ e2). split.
    { rewrite T2, T1. cbn [trace delay]. now rewrite <- !List.app_assoc. }
    intros Hi v e He Hn. apply elem_of_cons in He as [->|He].
    { destruct Hn as [Hn|Hn]; discriminate. }
    apply elem_of_app in He as [He|He].
    + destruct (S1 v e He Hn) as [->|Hv]; [|exact Hv].
      apply Hi, list_elem_of_here.
    + eapply S2; eauto. intros x Hx. apply Hi. now apply list_elem_of_further.
Qed.

(** X5 (what is requested).  Besides the URL it is called on, a run of
    [crawlUrl] claims and requests only resolutions of links that
    [isValidUrl] accepted and [isProductUrl] refused: a product page is
    never requested, unless the crawl starts on it. *)
Theorem crawlUrl_requests_internal (fuel : nat) (url baseDomain : string)
    (depth : nat) (w : State P) (c : Completion (list string)) (w' : State P) :
  crawlUrl fuel url baseDomain depth w = Some (c, w') ->
  exists evs, trace w' = trace w ++ evs /\
    forall u, EvGet u ∈ evs \/ EvAdd u ∈ evs ->
      u = url \/
      (isProductUrl u = false /\
       exists link parsedUrl,
         isValidUrl link baseDomain = true /\
         new_URL link baseDomain = Some parsedUrl /\ href parsedUrl = u).
Proof.
  intros H. apply crawlUrl_exec in H as (r & -> & X).
  apply exec_requests in X as (evs & T & S).
  exists evs. split; [exact T|]. intros u [Hu|Hu].
  - apply (S u _ Hu). now left.
  - apply (S u _ Hu). now right.
Qed.

(** *** The products of a fetched page *)

Lemma exec_for_keeps (baseDomain : string) (ph : Phase) (w : State P)
    (r : list string) (w' : State P) :
  exec baseDomain ph w r w' ->
  match ph with
  | For _ _ p => forall u, u ∈ p -> u ∈ r
  | _ => True
  end.
Proof.
  induction 1; try exact I.
  - auto.
  - intros u Hu. apply IHexec2, add_all_elem. now right.
Qed.

(** X6 (a fetched page's products are reported).  When [crawlUrl] is
    called within the depth bound on a URL not yet visited, and the first
    request is answered with a page, every link of that page that
    [isValidUrl] and [isProductUrl] accept is in the returned list; this
    holds at [depth = MAX_DEPTH] too, where the links of the page stand one
    level deeper. *)
Theorem page_products_returned (fuel : nat) (url baseDomain : string)
    (depth : nat) (w : State P) (c : Completion (list string)) (w' : State P)
    (hrefs : list string) (link : string) (parsedUrl : URL) :
  crawlUrl fuel url baseDomain depth w = Some (c, w') ->
  depth <= MAX_DEPTH ->
  url ∉ visitedUrls w ->
  0 < RETRY_LIMIT ->
  fst (axios_get url (net w)) = Resolved hrefs ->
  link ∈ hrefs ->
  isValidUrl link baseDomain = true ->
  new_URL link baseDomain = Some parsedUrl ->
  isProductUrl (href parsedUrl) = true ->
  exists r, c = Return r /\ href parsedUrl ∈ r.
Proof.
  intros H Hd Hnew Hr Hpage Hin V E Hprod.
  apply crawlUrl_exec in H as (r & -> & X). exists r. split; [reflexivity|].
  assert (G : (MAX_DEPTH <? depth)%nat || bool_decide (url ∈ visitedUrls w) = false).
  { destruct (Nat.ltb_spec MAX_DEPTH depth); [lia|].
    now rewrite bool_decide_eq_false_2. }
  inversion X as [| ? ? ? ? ? G' XL | | | | | | |]; subst; [congruence|].
  assert (Hget : forall o w1, get url (visitedUrls_add url w) = (o, w1) ->
                   o = Resolved hrefs /\ visitedUrls w1 = {[url]} ∪ visitedUrls w).
  { intros o w1 Hg. apply get_inv in Hg as (_ & Hv & -> & _). split; [exact Hpage | exact Hv]. }
  inversion XL as
    [ | | ? ? ? ? Ha
      | ? ? ? ? ? ? ? ? Ha Hg
      | ? ? ? ? ? ? Ha Hg
      | ? ? ? ? ? ? Ha Hg Hs
      | ? ? ? ? hrefs' w1 p i ? ? Ha Hg Hs XF | | ]; subst.
  - lia.
  - apply Hget in Hg as [Hg _]. discriminate.
  - apply Hget in Hg as [Hg _]. discriminate.
  - destruct (each_link_acc hrefs0 baseDomain (visitedUrls w') [] [])
      as (p' & i' & E' & _). congruence.
  - apply Hget in Hg as [[= ->] _].
    apply (exec_for_keeps _ _ _ _ _ XF).
    destruct (each_link_acc hrefs baseDomain (visitedUrls w1) [] [])
      as (p' & i' & E' & Hp & _).
    rewrite Hs in E'. injection E' as <- <-.
    apply Hp. right. split; [|exact Hprod].
    exists link, parsedUrl. auto.
Qed.

Lemma Set_add_prefix (x : string) (s : list string) :
  exists rest, Set_add x s = s ++ rest.
Proof.
  unfold Set_add. case_bool_decide.
  - exists []. now rewrite List.app_nil_r.
  - eauto.
Qed.

Lemma add_all_prefix (child p : list string) :
  exists rest, add_all child p = p ++ rest.
Proof.
  unfold add_all. revert p. induction child as [|x child IH]; intros p; simpl.
  - exists []. now rewrite List.app_nil_r.
  - destruct (Set_add_prefix x p) as [r1 ->].
    destruct (IH (p ++ r1)) as [r2 ->].
    exists (r1 ++ r2). now rewrite List.app_assoc.
Qed.

Lemma exec_for_prefix (baseDomain : string) (ph : Phase) (w : State P)
    (r : list string) (w' : State P) :
  exec baseDomain ph w r w' ->
  match ph with
  | For _ _ p => exists rest, r = p ++ rest
  | _ => True
  end.
Proof.
  induction 1 as [| | | | | | | depth p w
                  | depth u rest p w child w1 r w' X1 _ X2 [r2 ->]];
    try exact I.
  - exists []. now rewrite List.app_nil_r.
  - destruct (add_all_prefix child p) as [r1 ->].
    exists (r1 ++ r2). now rewrite List.app_assoc.
Qed.

(** A call that fetches its page at the first attempt: the scan of the page
    and the loop over its children. *)
Lemma crawlUrl_page (fuel : nat) (url baseDomain : string)
    (depth : nat) (w : State P) (c : Completion (list string)) (w' : State P)
    (hrefs : list string) :
  crawlUrl fuel url baseDomain depth w = Some (c, w') ->
  depth <= MAX_DEPTH ->
  url ∉ visitedUrls w ->
  0 < RETRY_LIMIT ->
  fst (axios_get url (net w)) = Resolved hrefs ->
  exists r p i w1,
    c = Return r /\
    each_link hrefs baseDomain ({[url]} ∪ visitedUrls w) [] [] = Some (p, i) /\
    exec baseDomain (For depth i p) w1 r w'.
Proof.
  intros H Hd Hnew Hr Hpage.
  apply crawlUrl_exec in H as (r & -> & X).
  assert (G : (MAX_DEPTH <? depth)%nat || bool_decide (url ∈ visitedUrls w) = false).
  { destruct (Nat.ltb_spec MAX_DEPTH depth); [lia|].
    now rewrite bool_decide_eq_false_2. }
  inversion X as [| ? ? ? ? ? G' XL | | | | | | |]; subst; [congruence|].
  assert (Hget : forall o w1, get url (visitedUrls_add url w) = (o, w1) ->
                   o = Resolved hrefs /\ visitedUrls w1 = {[url]} ∪ visitedUrls w).
  { intros o w1 Hg. apply get_inv in Hg as (_ & Hv & -> & _). split; [exact Hpage | exact Hv]. }
  inversion XL as
    [ | | ? ? ? ? Ha
      | ? ? ? ? ? ? ? ? Ha Hg
      | ? ? ? ? ? ? Ha Hg
      | ? ? ? ? ? ? Ha Hg Hs
      | ? ? ? ? hrefs' w1 p i ? ? Ha Hg Hs XF | | ]; subst.
  - lia.
  - apply Hget in Hg as [Hg _]. discriminate.
  - apply Hget in Hg as [Hg _]. discriminate.
  - destruct (each_link_acc hrefs0 baseDomain (visitedUrls w') [] [])
      as (p' & i' & E' & _). congruence.
  - apply Hget in Hg as [[= ->] Hv]. rewrite Hv in Hs.
    exists r, p, i, w1. auto.
Qed.

(** X14 (order of the result).  When the page is fetched at the first
    attempt, the returned list starts with the product URLs of the page
    itself, in the order of the scan; what the children add comes after. *)
Theorem page_products_first (fuel : nat) (url baseDomain : string)
    (depth : nat) (w : State P) (c : Completion (list string)) (w' : State P)
    (hrefs : list string) :
  crawlUrl fuel url baseDomain depth w = Some (c, w') ->
  depth <= MAX_DEPTH ->
  url ∉ visitedUrls w ->
  0 < RETRY_LIMIT ->
  fst (axios_get url (net w)) = Resolved hrefs ->
  exists r productUrls internalUrls rest,
    c = Return r /\
    each_link hrefs baseDomain ({[url]} ∪ visitedUrls w) [] []
      = Some (productUrls, internalUrls) /\
    r = productUrls ++ rest.
Proof.
  intros H Hd Hnew Hr Hpage.
  destruct (crawlUrl_page _ _ _ _ _ _ _ _ H Hd Hnew Hr Hpage)
    as (r & p & i & w1 & -> & E & X).
  destruct (exec_for_prefix _ _ _ _ _ X) as [rest ->].
  exists (p ++ rest), p, i, rest. auto.
Qed.

(** *** At and beyond the depth bound *)

Lemma exec_boundary (baseDomain : string) (ph : Phase) (w : State P)
    (r : list string) (w' : State P) :
  exec baseDomain ph w r w' ->
  exists evs, trace w' = trace w ++ evs /\
    match ph with
    | Call url depth =>
        (MAX_DEPTH < depth -> r = [] /\ evs = []) /\
        (MAX_DEPTH <= depth -> forall u, EvGet u ∈ evs -> u = url)
    | Loop url depth _ =>
        MAX_DEPTH <= depth -> forall u, EvGet u ∈ evs -> u = url
    | For depth i p =>
        MAX_DEPTH <= depth ->
        r = p /\ evs = repeat (EvDelay DELAY_BETWEEN_REQUESTS) (length i)
    end.
Proof.
  induction 1 as
    [ url depth w G
    | url depth w r w' G X (evs & T & S)
    | url depth a w Ha
    | url depth a w status w1 r w' Ha G S429 X (evs & T & S)
    | url depth a w status w1 Ha G S429
    | url depth a w hrefs w1 Ha G E
    | url depth a w hrefs w1 p i r w' Ha G E X (evs & T & S)
    | depth p w
    | depth u rest p w child w1 r w' X1 (e1 & T1 & S1) X2 (e2 & T2 & S2) ].
  - exists []. split; [symmetry; apply List.app_nil_r|]. split; [auto|].
    intros _ u He. apply elem_of_nil in He. contradiction.
  - exists (EvAdd url :: evs). split.
    { rewrite T. cbn [trace visitedUrls_add]. now rewrite <- List.app_assoc. }
    apply orb_false_iff in G as [G _]. apply Nat.ltb_ge in G. split; [lia|].
    intros Hd u He. apply elem_of_cons in He as [He|He]; [discriminate | eauto].
  - exists []. split; [symmetry; apply List.app_nil_r|].
    intros _ u He. apply elem_of_nil in He. contradiction.
  - apply get_inv in G as (Tg & _). exists (EvGet url :: EvDelay 3000 :: evs). split.
    { rewrite T. cbn [trace delay]. rewrite Tg. now rewrite <- !List.app_assoc. }
    intros Hd u He. apply elem_of_cons in He as [He|He]; [congruence|].
    apply elem_of_cons in He as [He|He]; [discriminate | eauto].
  - apply get_inv in G as (Tg & _). exists [EvGet url]. split; [exact Tg|].
    intros _ u He. apply list_elem_of_singleton in He. congruence.
  - apply get_inv in G as (Tg & _). exists [EvGet url]. split; [exact Tg|].
    intros _ u He. apply list_elem_of_singleton in He. congruence.
  - apply get_inv in G as (Tg & _). exists (EvGet url :: evs). split.
    { rewrite T, Tg. now rewrite <- List.app_assoc. }
    intros Hd u He. apply elem_of_cons in He as [He|He]; [congruence|].
    destruct (S Hd) as [_ ->]. apply list_elem_of_In, repeat_spec in He. discriminate.
  - exists []. split; [symmetry; apply List.app_nil_r|]. auto.
  - exists (EvDelay DELAY_BETWEEN_REQUESTS :: e1 ++ e2). split.
    { rewrite T2, T1. cbn [trace delay]. now rewrite <- !List.app_assoc. }
    intros Hd. destruct S1 as [S1 _]. destruct S1 as [-> ->]; [lia|].
    destruct (S2 Hd) as [-> ->]. split; reflexivity.
Qed.

(** X7 (the last level).  A call of [crawlUrl] at [MAX_DEPTH] or deeper
    requests no URL but its own: the pages that a page at [MAX_DEPTH] links
    to are never requested. *)
Theorem crawlUrl_last_level (fuel : nat) (url baseDomain : string)
    (depth : nat) (w : State P) (c : Completion (list string)) (w' : State P) :
  crawlUrl fuel url baseDomain depth w = Some (c, w') ->
  MAX_DEPTH <= depth ->
  exists evs, trace w' = trace w ++ evs /\
    forall u, EvGet u ∈ evs -> u = url.
Proof.
  intros H Hd. apply crawlUrl_exec in H as (r & -> & X).
  apply exec_boundary in X as (evs & T & _ & S).
  exists evs. split; [exact T | exact (S Hd)].
Qed.

End Exec.

(* ===================================================================== *)
(** ** Degenerate configurations *)
(* ===================================================================== *)

Section Degenerate.

Context {cfg : Config} {P : Platform}.

(** X8 (no attempt).  [RETRY_LIMIT] counts attempts, the first included:
    with [RETRY_LIMIT = 0] the crawl of a domain marks the root as visited,
    issues no request, and returns the domain with no product URL. *)
Theorem crawlDomain_without_attempts (fuel : nat) (d : string) (w : State P)
    (c : Completion DomainResult) (w' : State P) :
  RETRY_LIMIT = 0 ->
  crawlDomain fuel d w = Some (c, w') ->
  c = Return {| domain := d; productUrls := [] |} /\
  trace w' = trace w ++ [EvAdd d].
Proof.
  intros Hr. unfold crawlDomain. destruct fuel as [|[|fuel]]; try discriminate.
  rewrite crawlUrl_S. cbn [Nat.ltb Nat.leb orb].
  rewrite bool_decide_eq_false_2 by (cbn; apply not_elem_of_empty).
  rewrite while_attempts_S, Hr. cbn [Nat.ltb Nat.leb].
  intros [= <- <-]. split; reflexivity.
Qed.

Lemma event_loop_nil (sched : list nat) (w : State P) :
  event_loop sched [] w = Some (Return [], w, [], sched).
Proof. destruct sched; reflexivity. Qed.

Lemma crawlDomains_from_stuck (domains : list string) :
  PARALLEL_REQUESTS = 0 ->
  forall fuel sched i results (w : State P),
    i < length domains ->
    crawlDomains_from fuel sched domains i results w = None.
Proof.
  intros Hp. induction fuel as [|fuel IH]; intros sched i results w Hi;
    [reflexivity|].
  rewrite crawlDomains_from_S, Hp.
  destruct (Nat.ltb_spec i (length domains)); [|lia].
  unfold slice. replace (i + 0 - i) with 0 by lia.
  rewrite take_0. unfold Promise_all. cbn [start_all]. rewrite event_loop_nil.
  rewrite IH by lia. reflexivity.
Qed.

(** X9 (empty batches).  With [PARALLEL_REQUESTS = 0] the loop of
    [crawlDomains] does not advance: on a list that holds a domain it
    never returns, whatever the fuel. *)
Theorem crawlDomains_zero_parallelism (fuel : nat) (sched : list nat)
    (domains : list string) (w : State P) :
  PARALLEL_REQUESTS = 0 ->
  domains <> [] ->
  crawlDomains fuel sched domains w = None.
Proof.
  intros Hp Hd. unfold crawlDomains, crawlDomains_timeline.
  rewrite crawlDomains_from_stuck; [reflexivity | exact Hp |].
  destruct domains; [contradiction | cbn; lia].
Qed.

End Degenerate.

(* ===================================================================== *)
(** ** Domains given with their scheme *)
(* ===================================================================== *)

Module NodeURLHost.
Import Str StrFacts.

Lemma break_fst_chars (stop : ascii -> bool) (s : string) (c : ascii) :
  has_char c (fst (break stop s)) -> has_char c s.
Proof.
  induction s as [|d s IH]; simpl; [tauto|].
  destruct (stop d); simpl; [tauto|].
  destruct (break stop s) as [a b]; simpl in *. tauto.
Qed.

Lemma parse_absolute_no_slash (s : string) (u : URL) :
  NodeURL.parse_absolute s = Some u -> includes (hostname u) "/" = false.
Proof.
  unfold NodeURL.parse_absolute.
  destruct (NodeURL.special_scheme s) as [[proto rest]|].
  - pose proof (break_no_stop NodeURL.is_path_end rest "/") as Hn.
    destruct (break NodeURL.is_path_end rest) as [authority tail]; simpl in Hn.
    pose proof (break_fst_chars NodeURL.is_colon authority "/") as Hc.
    destruct (break NodeURL.is_colon authority) as [name x]; simpl in Hc.
    destruct (break NodeURL.is_query_start tail) as [path rest'].
    destruct (break NodeURL.is_hash rest') as [query fragment].
    destruct (is_empty name); [discriminate|].
    intros [= <-]; simpl.
    destruct (includes name "/") eqn:I; [|reflexivity].
    apply includes_char, Hc, Hn in I. discriminate.
  - destruct (NodeURL.other_scheme s) as [[proto rest]|]; [|discriminate].
    destruct (break NodeURL.is_query_start rest) as [path rest'].
    destruct (break NodeURL.is_hash rest'). intros [= <-]. reflexivity.
Qed.

(** The host names of the model resolver hold no ["/"]. *)
Lemma new_URL_no_slash (input base : string) (u : URL) :
  NodeURL.new_URL input base = Some u -> includes (hostname u) "/" = false.
Proof.
  unfold NodeURL.new_URL.
  destruct (NodeURL.parse_absolute base) as [b|] eqn:Eb; [|discriminate].
  destruct (NodeURL.parse_absolute input) as [v|] eqn:Ev.
  { intros [= <-]. eapply parse_absolute_no_slash; eauto. }
  destruct (is_empty (host b)); [discriminate|].
  intros H.
  repeat match type of H with
    | (match ?x with _ => _ end) = _ => destruct x
    end; eapply parse_absolute_no_slash; eauto.
Qed.

End NodeURLHost.

Section SchemeDomains.

Context {cfg : Config} {P : Platform}.

Lemma valid_target_absurd (baseDomain u : string) :
  (forall i b v, new_URL i b = Some v -> Str.includes (hostname v) "/" = false) ->
  Str.includes baseDomain "/" = true ->
  ~ valid_target baseDomain u.
Proof.
  intros Hhost Hb (link & U & V & E & _). unfold isValidUrl in V. rewrite E in V.
  pose proof (StrFacts.includes_trans _ _ _ V Hb) as T.
  rewrite (Hhost _ _ _ E) in T. discriminate.
Qed.

(** X11 (a domain given as [scheme://host]).  With a resolver whose host
    names hold no ["/"], the crawl of a domain whose string holds one
    returns the domain with no product URL and requests no URL but the
    domain itself, whatever the pages hold. *)
Theorem crawlDomain_scheme_domain (fuel : nat) (d : string) (w : State P)
    (c : Completion DomainResult) (w' : State P) :
  (forall i b v, new_URL i b = Some v -> Str.includes (hostname v) "/" = false) ->
  Str.includes d "/" = true ->
  crawlDomain fuel d w = Some (c, w') ->
  c = Return {| domain := d; productUrls := [] |} /\
  exists evs, trace w' = trace w ++ evs /\ forall u, EvGet u ∈ evs -> u = d.
Proof.
  intros Hhost Hd. unfold crawlDomain.
  destruct (crawlUrl fuel d d 0 (new_Set w)) as [[c0 w0]|] eqn:E; [|discriminate].
  apply crawlUrl_exec in E as (r & -> & X). intros [= <- <-].
  pose proof (exec_product_set _ _ _ _ _ X) as [_ Hr]. cbn beta iota in Hr.
  apply exec_requests in X as (evs & T & S).
  assert (r = []) as ->.
  { destruct r as [|u r]; [reflexivity|]. exfalso.
    destruct (Hr u (list_elem_of_here _ _)) as [_ Hv].
    eapply valid_target_absurd; eauto. }
  split; [reflexivity|]. exists evs. split; [exact T|].
  intros u Hu. destruct (S u _ Hu) as [->|[_ Hv]]; [now left | reflexivity |].
  exfalso. eapply valid_target_absurd; eauto.
Qed.

End SchemeDomains.

(** X12 (a product path makes a product URL).  For a parsed URL whose
    [href] holds its [pathname], as every parsed URL does: when the path
    holds a pattern, [isProductUrl] accepts the [href]. *)
Theorem product_path_accepted (u : URL) :
  Str.includes (href u) (pathname u) = true ->
  classify_by_path u = true ->
  isProductUrl (href u) = true.
Proof.
  intros Hpath. unfold classify_by_path, isProductUrl, RegExp_test.
  rewrite !existsb_exists. intros (pattern & Hin & H).
  exists pattern. split; [exact Hin|].
  eapply StrFacts.includes_trans; eassumption.
Qed.

(* ===================================================================== *)
(** ** One domain does not bear on another *)
(* ===================================================================== *)

Section Isolation.

Context {cfg : Config} {P : Platform}.

(** *** A task resumed without a pause is the function of the engine *)

Lemma complete_for_async {A : Type}
    (crawl : string -> State P -> option (Completion (list string) * State P))
    (crawl_async : string -> gset string -> Cont A -> Async A)
    (l : list string) (k : Cont A) :
  (forall u visited (k : Cont A) w,
     complete (crawl_async u visited k) w =
     match crawl u (with_visited visited w) with
     | None => None
     | Some (c, s) => complete (k c (visitedUrls s)) (with_visited (visitedUrls w) s)
     end) ->
  forall p visited w,
    complete (for_async crawl_async l p visited k) w =
    match for_internalUrls crawl l p (with_visited visited w) with
    | None => None
    | Some (c, s) => complete (k c (visitedUrls s)) (with_visited (visitedUrls w) s)
    end.
Proof.
  intros H. induction l as [|u l IH]; intros p visited w;
    cbn [for_async for_internalUrls complete].
  - destruct w; reflexivity.
  - rewrite H.
    change (delay DELAY_BETWEEN_REQUESTS (with_visited visited w))
      with (with_visited visited (delay DELAY_BETWEEN_REQUESTS w)).
    destruct (crawl u _) as [[[child|e] s]|]; try reflexivity.
    rewrite IH. destruct s; reflexivity.
Qed.

Lemma complete_both (fuel : nat) :
  (forall (A : Type) url baseDomain depth visited (k : Cont A) (w : State P),
     complete (crawlUrl_async fuel url baseDomain depth visited k) w =
     match crawlUrl fuel url baseDomain depth (with_visited visited w) with
     | None => None
     | Some (c, s) => complete (k c (visitedUrls s)) (with_visited (visitedUrls w) s)
     end) /\
  (forall (A : Type) url baseDomain depth attempts visited (k : Cont A)
          (w : State P),
     complete (while_async fuel url baseDomain depth attempts visited k) w =
     match while_attempts fuel url baseDomain depth attempts
             (with_visited visited w) with
     | None => None
     | Some (c, s) => complete (k c (visitedUrls s)) (with_visited (visitedUrls w) s)
     end).
Proof.
  induction fuel as [|fuel [IHc IHw]]; [split; reflexivity|]. split.
  - intros A url baseDomain depth visited k w.
    rewrite crawlUrl_async_S, crawlUrl_S. cbn [visitedUrls with_visited].
    destruct (_ || _); [destruct w; reflexivity|].
    cbn [complete]. rewrite IHw. reflexivity.
  - intros A url baseDomain depth attempts visited k w.
    rewrite while_async_S, while_attempts_S.
    destruct (attempts <? RETRY_LIMIT)%nat; [|destruct w; reflexivity].
    cbn [complete]. unfold try_block, get. cbn [net with_visited].
    destruct (axios_get url (net w)) as [[hrefs|status] n];
      cbn [visitedUrls trace net with_visited].
    + destruct (each_link hrefs baseDomain visited [] []) as [[p i]|];
        [|reflexivity].
      rewrite (complete_for_async
                 (fun u => crawlUrl fuel u baseDomain (depth + 1))
                 (fun u => crawlUrl_async fuel u baseDomain (depth + 1)))
        by (intros; apply IHc).
      cbn [with_visited trace net visitedUrls].
      destruct (for_internalUrls _ i p _) as [[[r|e] s]|]; try reflexivity.
      destruct (is_429 e); [|reflexivity].
      cbn [complete]. rewrite IHw. destruct s; reflexivity.
    + destruct (is_429 status); [|reflexivity].
      cbn [complete]. rewrite IHw. reflexivity.
Qed.

Lemma complete_crawlDomain_async (fuel : nat) (d : string) (w : State P) :
  complete (crawlDomain_async fuel d) w =
  match crawlDomain fuel d w with
  | None => None
  | Some (c, s) => Some (c, with_visited (visitedUrls w) s)
  end.
Proof.
  unfold crawlDomain_async, crawlDomain. rewrite (proj1 (complete_both fuel)).
  change (with_visited ∅ w) with (new_Set w).
  destruct (crawlUrl fuel d d 0 (new_Set w)) as [[[r|e] s]|]; reflexivity.
Qed.

(** *** Servers that keep no state *)

Lemma complete_settles {A : Type} (k : Async A) (w : State P) :
  (forall url n, snd (axios_get url n) = n) ->
  match complete k w with
  | Some (c, w') => settles (net w) k = Some c /\ net w' = net w
  | None => settles (net w) k = None
  end.
Proof.
  intros Hst. revert w. induction k as [c| |url k IH|url k IH|ms k IH]; intros w;
    cbn [complete settles]; auto.
  - apply (IH (record (EvAdd url) w)).
  - unfold get. specialize (Hst url (net w)).
    destruct (axios_get url (net w)) as [o n]. cbn [fst snd] in *. subst n.
    apply (IH o (mkState P (visitedUrls w) (trace w ++ [EvGet url]) (net w))).
  - apply (IH (delay ms w)).
Qed.

Lemma advance_settles {A : Type} (k : Async A) (w : State P) :
  (forall url n, snd (axios_get url n) = n) ->
  task_settles (net w) (advance k w).1 = settles (net w) k /\
  net (advance k w).2 = net w.
Proof.
  intros Hst. revert w. induction k as [c| |url k IH|url k IH|ms k IH]; intros w;
    cbn [advance settles]; auto.
  - apply (IH (record (EvAdd url) w)).
  - unfold get. specialize (Hst url (net w)).
    destruct (axios_get url (net w)) as [o n]. cbn [fst snd] in *. subst n.
    split; reflexivity.
Qed.

Lemma resume_settles (i : nat) (pool : Pool) (w : State P) :
  (forall url n, snd (axios_get url n) = n) ->
  net (resume i pool w).1.2 = net w /\
  map (fun e => task_settles (net w) e.2) (resume i pool w).1.1
  = map (fun e => task_settles (net w) e.2) pool.
Proof.
  intros Hst. unfold resume.
  destruct (pool !! i) as [[d [k|c|]]|] eqn:E; try (split; reflexivity).
  destruct (advance_settles k w Hst) as [Ht Hn].
  destruct (advance k w) as [t w']. cbn [fst snd] in *. split; [exact Hn|].
  clear -E Ht. revert i E. induction pool as [|e pool IH]; intros [|i] E;
    try discriminate; cbn in *.
  - injection E as ->. f_equal. exact Ht.
  - f_equal. apply IH, E.
Qed.

Lemma Promise_state_settles (n : Net) (pool : Pool) (rs : list DomainResult) :
  Promise_state pool = Some (Return rs) ->
  map (fun e => task_settles n e.2) pool = map (fun r => Some (Return r)) rs.
Proof.
  unfold Promise_state. destruct (rejection pool); [discriminate|].
  destruct (fulfilled pool) as [rs'|] eqn:E; [|discriminate]. intros [= <-].
  revert rs' E. induction pool as [|[d [k|[r|e]|]] pool IH]; intros rs' E;
    cbn in E; try discriminate.
  - injection E as <-. reflexivity.
  - destruct (fulfilled pool) as [rs0|]; [|discriminate]. injection E as <-.
    cbn. f_equal. apply IH. reflexivity.
Qed.

Lemma finish_settles (pool : Pool) :
  (forall url n, snd (axios_get url n) = n) ->
  forall (w : State P) rs w' ms,
    finish pool w = Some (Return rs, w', ms) ->
    net w' = net w /\
    map (fun e => task_settles (net w) e.2) pool
    = map (fun r => Some (Return r)) rs.
Proof.
  intros Hst. induction pool as [|[d [k|[r|e]|]] pool IH]; intros w rs w' ms;
    cbn [finish]; try discriminate.
  - intros [= <- <- <-]. split; reflexivity.
  - pose proof (complete_settles k w Hst) as Hk.
    destruct (complete k w) as [[[r|e] w1]|]; try discriminate.
    destruct Hk as [Hk Hn].
    destruct (finish pool w1) as [[[[rs1|e] w2] ms1]|] eqn:E; try discriminate.
    intros [= <- <- <-]. apply IH in E as [Hn1 Hm]. rewrite Hn in Hn1, Hm.
    split; [exact Hn1|]. cbn. now rewrite Hk, Hm.
  - destruct (finish pool w) as [[[[rs1|e] w2] ms1]|] eqn:E; try discriminate.
    intros [= <- <- <-]. apply IH in E as [Hn1 Hm].
    split; [exact Hn1|]. cbn. now rewrite Hm.
Qed.

Lemma event_loop_settles (sched : list nat) :
  (forall url n, snd (axios_get url n) = n) ->
  forall (pool : Pool) (w : State P) rs w' ms sched',
    event_loop sched pool w = Some (Return rs, w', ms, sched') ->
    net w' = net w /\
    map (fun e => task_settles (net w) e.2) pool
    = map (fun r => Some (Return r)) rs.
Proof.
  intros Hst. induction sched as [|i sched IH]; intros pool w rs w' ms sched';
    cbn [event_loop];
    destruct (Promise_state pool) as [c|] eqn:Es;
    try (intros [= -> <- <- <-]; split;
         [reflexivity | apply Promise_state_settles, Es]).
  - destruct (finish pool w) as [[[c w1] ms1]|] eqn:E; [|discriminate].
    intros [= -> <- <- <-]. eapply finish_settles; eassumption.
  - destruct (resume_settles i pool w Hst) as [Hn Hm].
    destruct (resume i pool w) as [[pool' w1] ms1]. cbn [fst snd] in *.
    destruct (event_loop sched pool' w1) as [[[[c w2] ms2] s]|] eqn:E;
      [|discriminate].
    intros [= -> <- <- <-]. apply IH in E as [Hn2 Hm2]. rewrite Hn in Hn2, Hm2.
    split; [exact Hn2 | congruence].
Qed.

Lemma start_all_settles (fuel : nat) (batch : list string) :
  (forall url n, snd (axios_get url n) = n) ->
  forall w : State P,
    net (start_all fuel batch w).1.2 = net w /\
    map (fun e => task_settles (net w) e.2) (start_all fuel batch w).1.1
    = map (fun d => settles (net w) (crawlDomain_async fuel d)) batch.
Proof.
  intros Hst. induction batch as [|d batch IH]; intros w; cbn [start_all].
  - split; reflexivity.
  - destruct (advance_settles (crawlDomain_async fuel d) w Hst) as [Ht Hn].
    destruct (advance (crawlDomain_async fuel d) w) as [t w1]. cbn [fst snd] in *.
    destruct (IH w1) as [Hn1 Hm].
    destruct (start_all fuel batch w1) as [[pool w2] ms]. cbn [fst snd] in *.
    rewrite Hn in Hn1, Hm. split; [exact Hn1|]. cbn. now rewrite Ht, Hm.
Qed.

Lemma crawlDomain_async_alone (fuel : nat) (d : string) (n : Net)
    (r : DomainResult) :
  (forall url n, snd (axios_get url n) = n) ->
  settles n (crawlDomain_async fuel d) = Some (Return r) ->
  exists v', crawlDomain fuel d (start P n) = Some (Return r, v').
Proof.
  intros Hst Hs.
  pose proof (complete_settles (crawlDomain_async fuel d) (start P n) Hst) as Hc.
  rewrite complete_crawlDomain_async in Hc. cbn [net start] in Hc.
  destruct (crawlDomain fuel d (start P n)) as [[c s]|].
  - destruct Hc as [Hc _]. rewrite Hs in Hc. injection Hc as <-. eauto.
  - congruence.
Qed.

Lemma Promise_all_alone (fuel : nat) (sched : list nat) (batch : list string)
    (w : State P) (rs : list DomainResult) (w' : State P) (ms : list Moment)
    (sched' : list nat) :
  (forall url n, snd (axios_get url n) = n) ->
  Promise_all fuel sched batch w = Some (Return rs, w', ms, sched') ->
  net w' = net w /\
  Forall2 (fun d r => exists v',
             crawlDomain fuel d (start P (net w)) = Some (Return r, v')) batch rs.
Proof.
  intros Hst. unfold Promise_all.
  destruct (start_all_settles fuel batch Hst w) as [Hn Hm].
  destruct (start_all fuel batch w) as [[pool w1] ms0]. cbn [fst snd] in *.
  destruct (event_loop sched pool w1) as [[[[c w2] ms1] s]|] eqn:E; [|discriminate].
  intros [= -> <- <- <-]. apply event_loop_settles in E as [Hn2 Hm2]; [|exact Hst].
  rewrite Hn in Hn2, Hm2. split; [exact Hn2|]. rewrite Hm in Hm2. clear -Hm2 Hst.
  revert rs Hm2. induction batch as [|d batch IH]; intros [|r rs] Hm;
    try discriminate; constructor.
  - injection Hm as Hd _. apply crawlDomain_async_alone; assumption.
  - injection Hm as _ Hm. apply IH, Hm.
Qed.

Lemma crawlDomains_from_alone (domains : list string) :
  (forall url n, snd (axios_get url n) = n) ->
  forall fuel sched i results (w : State P) rs w' ms,
    crawlDomains_from fuel sched domains i results w = Some (Return rs, w', ms) ->
    exists rs', rs = results ++ rs' /\
      Forall2 (fun d r => exists fuel' v',
                 crawlDomain fuel' d (start P (net w)) = Some (Return r, v'))
        (drop i domains) rs'.
Proof.
  intros Hst. induction fuel as [|fuel IH]; intros sched i results w rs w' ms;
    [discriminate|].
  rewrite crawlDomains_from_S.
  destruct (Nat.ltb_spec i (length domains)) as [Hlt|Hge].
  - destruct (Promise_all fuel sched _ w) as [[[[[rs1|e] w1] ms1] s]|] eqn:E;
      try discriminate.
    apply Promise_all_alone in E as (Hn & F1); [|exact Hst].
    destruct (crawlDomains_from fuel s domains _ _ w1) as [[[c w2] ms2]|] eqn:E2;
      [|discriminate].
    intros [= -> <- <-]. apply IH in E2 as (rs2 & -> & F2). rewrite Hn in F2.
    exists (rs1 ++ rs2). split; [now rewrite List.app_assoc|].
    rewrite <- (take_drop PARALLEL_REQUESTS (drop i domains)), drop_drop.
    apply Forall2_app; [|exact F2].
    unfold slice in F1. replace (i + PARALLEL_REQUESTS - i) with PARALLEL_REQUESTS
      in F1 by lia.
    eapply Forall2_impl; [exact F1|]. cbn beta. intros d r [v' Hv]. eauto.
  - intros [= <- <- <-]. exists []. split; [now rewrite List.app_nil_r|].
    rewrite drop_ge by lia. constructor.
Qed.

(** X13 (isolation).  When the servers keep no state between requests,
    the result that [crawlDomains] returns for a domain is the one that
    [crawlDomain] returns for it when run alone from the start, in whatever
    order the event loop resumes the tasks: the visited set is made anew
    for each domain, and nothing else passes from one domain crawl to
    another. *)
Theorem crawlDomains_isolated (fuel : nat) (sched : list nat)
    (domains : list string) (w : State P)
    (results : list DomainResult) (w' : State P) :
  (forall url n, snd (axios_get url n) = n) ->
  crawlDomains fuel sched domains w = Some (Return results, w') ->
  Forall2 (fun d r => exists fuel' v',
             crawlDomain fuel' d (start P (net w)) = Some (Return r, v'))
    domains results.
Proof.
  intros Hst. unfold crawlDomains, crawlDomains_timeline.
  destruct (crawlDomains_from fuel sched domains 0 [] w) as [[[c w1] ms]|] eqn:H;
    [|discriminate].
  intros [= -> <-].
  apply crawlDomains_from_alone in H as (rs' & -> & F); [|exact Hst].
  exact F.
Qed.

End Isolation.

(* ===================================================================== *)
(** ** A batch in flight *)
(* ===================================================================== *)

Section InFlight.

Context {cfg : Config} {P : Platform}.

Lemma crawlDomain_async_first (fuel : nat) (d : string) (w : State P) :
  0 < RETRY_LIMIT -> 2 <= fuel ->
  trace (advance (crawlDomain_async fuel d) w).2 = trace w ++ [EvAdd d; EvGet d].
Proof.
  intros Hr Hf. destruct fuel as [|[|fuel]]; try lia.
  unfold crawlDomain_async.
  rewrite crawlUrl_async_S. cbn [Nat.ltb Nat.leb orb].
  rewrite bool_decide_eq_false_2 by apply not_elem_of_empty.
  rewrite while_async_S.
  destruct (Nat.ltb_spec 0 RETRY_LIMIT) as [_|]; [|lia].
  cbn [advance]. unfold get. cbn [record net trace].
  destruct (axios_get d (net w)) as [o n]. cbn [snd trace].
  now rewrite <- List.app_assoc.
Qed.

Lemma start_all_trace (fuel : nat) (batch : list string) :
  0 < RETRY_LIMIT -> 2 <= fuel ->
  forall w : State P,
    trace (start_all fuel batch w).1.2
    = trace w ++ flat_map (fun d => [EvAdd d; EvGet d]) batch.
Proof.
  intros Hr Hf. induction batch as [|d batch IH]; intros w; cbn [start_all].
  - cbn. now rewrite List.app_nil_r.
  - pose proof (crawlDomain_async_first fuel d w Hr Hf) as H1.
    destruct (advance (crawlDomain_async fuel d) w) as [t w1]. cbn [snd] in H1.
    specialize (IH w1).
    destruct (start_all fuel batch w1) as [[pool w2] ms]. cbn [fst snd] in *.
    rewrite IH, H1, <- List.app_assoc. reflexivity.
Qed.

(** X15 (a batch starts as a whole).  With a positive [RETRY_LIMIT], what
    [Promise.all] over the tasks of a batch does to the world begins with
    the claim and the first request of every domain of the batch, in
    order: the requests of the whole batch are under way before the answer
    to any of them is looked at, in whatever order the tasks are then
    resumed. *)
Theorem batch_starts_together (fuel : nat) (sched : list nat)
    (batch : list string) (w : State P)
    (c : Completion (list DomainResult)) (w' : State P) (ms : list Moment)
    (sched' : list nat) :
  0 < RETRY_LIMIT -> 2 <= fuel ->
  Promise_all fuel sched batch w = Some (c, w', ms, sched') ->
  exists evs,
    trace w' = trace w ++ flat_map (fun d => [EvAdd d; EvGet d]) batch ++ evs.
Proof.
  intros Hr Hf. unfold Promise_all.
  pose proof (start_all_trace fuel batch Hr Hf w) as Hs.
  destruct (start_all fuel batch w) as [[pool w1] ms0]. cbn [fst snd] in Hs.
  destruct (event_loop sched pool w1) as [[[[c1 w2] ms1] s]|] eqn:E; [|discriminate].
  intros [= <- <- <- <-]. apply event_loop_trace in E as [evs ->].
  exists evs. now rewrite Hs, <- List.app_assoc.
Qed.

End InFlight.


(* ===================================================================== *)
(** ** The further theorems at work *)
(* ===================================================================== *)

Lemma crawlUrl_returns_no_duplicate_witness :
  exists r w',
    crawlUrl (cfg:=defaults) (P:=lenient_site catalog_site) 21
      "https://example1.com" "https://example1.com" 0
      (start (lenient_site catalog_site) tt)
    = Some (Return r, w') /\ NoDup r.
Proof.
  destruct (crawlUrl_total (cfg:=defaults) (P:=lenient_site catalog_site) 4 0 21
              "https://example1.com" "https://example1.com"
              (start (lenient_site catalog_site) tt)) as (r & w' & H);
    [simpl; lia | simpl; lia |].
  destruct (crawlUrl_returns_no_duplicate _ _ _ _ _ _ _ H) as (r' & Heq & Hnd).
  injection Heq as <-. exists r, w'. split; [exact H | exact Hnd].
Defined.

Lemma crawlUrl_returns_products_witness :
  exists r w',
    crawlUrl (cfg:=defaults) (P:=lenient_site catalog_site) 21
      "https://example1.com" "https://example1.com" 0
      (start (lenient_site catalog_site) tt)
    = Some (Return r, w') /\
    forall u, u ∈ r -> isProductUrl u = true.
Proof.
  destruct (crawlUrl_total (cfg:=defaults) (P:=lenient_site catalog_site) 4 0 21
              "https://example1.com" "https://example1.com"
              (start (lenient_site catalog_site) tt)) as (r & w' & H);
    [simpl; lia | simpl; lia |].
  destruct (crawlUrl_returns_products _ _ _ _ _ _ _ H) as (r' & Heq & Hp).
  injection Heq as <-. exists r, w'. split; [exact H|].
  intros u Hu. apply (Hp u Hu).
Defined.

Lemma crawlUrl_requests_spaced_witness :
  exists (w' : State (static_site busy_site)) evs,
    trace w' = evs /\
    forall pre u mid v post,
      evs = pre ++ EvGet u :: mid ++ EvGet v :: post ->
      exists ms, EvDelay ms ∈ mid.
Proof.
  destruct (crawlUrl_total (cfg:=defaults) (P:=static_site busy_site) 4 0 21
              "https://example1.com" "https://example1.com"
              (start (static_site busy_site) tt)) as (r & w' & H);
    [simpl; lia | simpl; lia |].
  destruct (crawlUrl_requests_spaced _ _ _ _ _ _ _ H) as (evs & T & S).
  exists w', evs. split; [exact T | exact S].
Defined.

Lemma crawlUrl_requests_internal_witness :
  exists (w' : State (lenient_site catalog_site)) evs,
    trace w' = evs /\
    forall u, EvGet u ∈ evs \/ EvAdd u ∈ evs ->
      u = "https://example1.com" \/ isProductUrl u = false.
Proof.
  destruct (crawlUrl_total (cfg:=defaults) (P:=lenient_site catalog_site) 4 0 21
              "https://example1.com" "https://example1.com"
              (start (lenient_site catalog_site) tt)) as (r & w' & H);
    [simpl; lia | simpl; lia |].
  destruct (crawlUrl_requests_internal _ _ _ _ _ _ _ H) as (evs & T & S).
  exists w', evs. split; [exact T|].
  intros u Hu. destruct (S u Hu) as [->|[Hp _]]; auto.
Defined.

Lemma page_products_returned_witness :
  exists r (w' : State (lenient_site catalog_site)),
    crawlUrl (cfg:=defaults) (P:=lenient_site catalog_site) 21
      "https://example1.com" "https://example1.com" 0
      (start (lenient_site catalog_site) tt)
    = Some (Return r, w') /\
    "https://example1.com/item/2?size=m" ∈ r.
Proof.
  destruct (crawlUrl_total (cfg:=defaults) (P:=lenient_site catalog_site) 4 0 21
              "https://example1.com" "https://example1.com"
              (start (lenient_site catalog_site) tt)) as (r & w' & H);
    [simpl; lia | simpl; lia |].
  destruct (page_products_returned (cfg:=defaults) (P:=lenient_site catalog_site)
              21 "https://example1.com" "https://example1.com" 0
              (start (lenient_site catalog_site) tt) (Return r) w'
              ["/product/1"; "/item/2?size=m"; "/product/1"; "/more"; "/more"]
              "/item/2?size=m"
              (mkURL "https://example1.com/item/2?size=m" "https:" "example1.com"
                 "https://example1.com/item/2?size=m" "/item/2" "?size=m" ""))
    as (r' & Heq & Hin).
  - exact H.
  - simpl. lia.
  - apply not_elem_of_empty.
  - simpl. lia.
  - reflexivity.
  - apply list_elem_of_further, list_elem_of_here.
  - reflexivity.
  - reflexivity.
  - reflexivity.
  - injection Heq as <-. exists r, w'. split; [exact H | exact Hin].
Defined.

Lemma page_products_first_witness :
  exists r rest (w' : State (lenient_site catalog_site)),
    crawlUrl (cfg:=defaults) (P:=lenient_site catalog_site) 21
      "https://example1.com" "https://example1.com" 0
      (start (lenient_site catalog_site) tt)
    = Some (Return r, w') /\
    r = ["https://example1.com/product/1"; "https://example1.com/item/2?size=m"]
        ++ rest.
Proof.
  destruct (crawlUrl_total (cfg:=defaults) (P:=lenient_site catalog_site) 4 0 21
              "https://example1.com" "https://example1.com"
              (start (lenient_site catalog_site) tt)) as (r & w' & H);
    [simpl; lia | simpl; lia |].
  destruct (page_products_first (cfg:=defaults) (P:=lenient_site catalog_site)
              21 "https://example1.com" "https://example1.com" 0
              (start (lenient_site catalog_site) tt) (Return r) w'
              ["/product/1"; "/item/2?size=m"; "/product/1"; "/more"; "/more"])
    as (r' & p & i & rest & Heq & E & Hr).
  - exact H.
  - simpl. lia.
  - apply not_elem_of_empty.
  - simpl. lia.
  - reflexivity.
  - injection Heq as <-. vm_compute in E. injection E as <- <-.
    exists r, rest, w'. split; [exact H | exact Hr].
Defined.

Lemma crawlUrl_last_level_witness :
  exists (w' : State (lenient_site catalog_site)) evs,
    trace w' = evs /\
    forall u, EvGet u ∈ evs -> u = "https://example1.com/more".
Proof.
  destruct (crawlUrl_total (cfg:=defaults) (P:=lenient_site catalog_site) 1 3 6
              "https://example1.com/more" "https://example1.com"
              (start (lenient_site catalog_site) tt)) as (r & w' & H);
    [simpl; lia | simpl; lia |].
  destruct (crawlUrl_last_level _ _ _ _ _ _ _ H) as (evs & T & S).
  - simpl. lia.
  - exists w', evs. split; [exact T | exact S].
Defined.

Lemma crawlDomain_without_attempts_witness :
  exists (w' : State (static_site scenario_site)),
    crawlDomain (cfg:=no_attempt_config) (P:=static_site scenario_site) 9
      "https://example1.com" (start (static_site scenario_site) tt)
    = Some (Return {| domain := "https://example1.com"; productUrls := [] |}, w') /\
    trace w' = [EvAdd "https://example1.com"].
Proof.
  destruct (crawlDomain_total (cfg:=no_attempt_config) (P:=static_site scenario_site)
              9 "https://example1.com" (start (static_site scenario_site) tt))
    as (r & w' & H); [vm_compute; lia|].
  destruct (crawlDomain_without_attempts (cfg:=no_attempt_config) _ _ _ _ _
              eq_refl H) as (Hc & T).
  exists w'. split; [rewrite H; f_equal; f_equal; exact Hc | exact T].
Defined.

Lemma crawlDomains_zero_parallelism_witness :
  crawlDomains (cfg:=empty_batch_config) (P:=static_site scenario_site) 1000
    [0; 1; 2] entry_domains (start (static_site scenario_site) tt) = None.
Proof.
  apply (crawlDomains_zero_parallelism (cfg:=empty_batch_config)).
  - reflexivity.
  - discriminate.
Defined.

Lemma isValidUrl_base_with_slash_witness :
  isValidUrl (P:=static_site scenario_site) "/product/42" "https://example1.com"
  = false.
Proof.
  apply (isValidUrl_base_with_slash (P:=static_site scenario_site)).
  - intros i b u. apply NodeURLHost.new_URL_no_slash.
  - reflexivity.
Defined.

Lemma crawlDomain_scheme_domain_witness :
  exists (w' : State (static_site scenario_site)) evs,
    crawlDomain (cfg:=scenario_config) (P:=static_site scenario_site) 16
      "https://example1.com" (start (static_site scenario_site) tt)
    = Some (Return {| domain := "https://example1.com"; productUrls := [] |}, w') /\
    trace w' = evs /\
    forall u, EvGet u ∈ evs -> u = "https://example1.com".
Proof.
  destruct (crawlDomain_total (cfg:=scenario_config) (P:=static_site scenario_site)
              16 "https://example1.com" (start (static_site scenario_site) tt))
    as (r & w' & H); [vm_compute; lia|].
  destruct (crawlDomain_scheme_domain (cfg:=scenario_config)
              (P:=static_site scenario_site) 16 "https://example1.com"
              (start (static_site scenario_site) tt) _ w'
              (fun i b u => NodeURLHost.new_URL_no_slash i b u) eq_refl H)
    as (Hc & evs & T & S).
  exists w', evs. split; [rewrite H; f_equal; f_equal; exact Hc|].
  split; [exact T | exact S].
Defined.

Lemma product_path_accepted_witness :
  isProductUrl "https://example1.com/product/42?ref=home" = true.
Proof.
  apply (product_path_accepted
           (mkURL "https://example1.com/product/42?ref=home" "https:"
              "example1.com" "example1.com" "/product/42" "?ref=home" ""));
    reflexivity.
Defined.

Lemma crawlDomains_isolated_witness :
  exists results (w' : State (static_site scenario_site)),
    crawlDomains (cfg:=defaults) (P:=static_site scenario_site) 30 [6; 1; 0]
      seven_domains (start (static_site scenario_site) tt)
    = Some (Return results, w') /\
    Forall2 (fun d r => exists fuel' v',
               crawlDomain (cfg:=defaults) (P:=static_site scenario_site) fuel' d
                 (start (static_site scenario_site) tt) = Some (Return r, v'))
      seven_domains results.
Proof.
  destruct (crawlDomains_from_ok (cfg:=defaults) (P:=static_site scenario_site)
              seven_domains ltac:(simpl; lia) 7 0 []
              (start (static_site scenario_site) tt) [6; 1; 0] 30)
    as (rs & w' & ms & H & _); [simpl; lia | vm_compute; lia |].
  assert (H' : crawlDomains (cfg:=defaults) (P:=static_site scenario_site) 30
                 [6; 1; 0] seven_domains (start (static_site scenario_site) tt)
               = Some (Return rs, w')).
  { unfold crawlDomains, crawlDomains_timeline. rewrite H. reflexivity. }
  exists rs, w'. split; [exact H'|].
  apply (crawlDomains_isolated (cfg:=defaults) (P:=static_site scenario_site)
           30 [6; 1; 0] seven_domains (start (static_site scenario_site) tt) rs w').
  - reflexivity.
  - exact H'.
Defined.

Lemma batch_starts_together_witness :
  exists c (w' : State (static_site busy_site)) ms sched' evs,
    Promise_all (cfg:=pair_config) (P:=static_site busy_site) 30 [1; 1; 0]
      ["https://example1.com"; "https://example2.com"]
      (start (static_site busy_site) tt)
    = Some (c, w', ms, sched') /\
    trace w' = [EvAdd "https://example1.com"; EvGet "https://example1.com";
                EvAdd "https://example2.com"; EvGet "https://example2.com"]
               ++ evs.
Proof.
  destruct (Promise_all_returns (cfg:=pair_config) (P:=static_site busy_site) 30
              [1; 1; 0] ["https://example1.com"; "https://example2.com"]
              (start (static_site busy_site) tt))
    as (rs & w' & order & sched' & H & _); [vm_compute; lia|].
  destruct (batch_starts_together (cfg:=pair_config) (P:=static_site busy_site) 30
              [1; 1; 0] ["https://example1.com"; "https://example2.com"]
              (start (static_site busy_site) tt) _ _ _ _
              ltac:(simpl; lia) ltac:(lia) H) as [evs T].
  eexists (Return rs), w', _, sched', evs. split; [exact H | exact T].
Defined.

(** Two domains per batch against servers that answer 429, the event loop
    resuming the second task until it ends and then the first: both
    requests of the batch are made at the start, the second domain ends
    first, the third is started when both have ended, and the results
    come in the order of the input. *)
Example batches_in_flight :
  observe_tasks
    (crawlDomains_timeline (cfg:=pair_config) (P:=static_site busy_site) 30
       [1; 1; 1; 1] entry_domains (start (static_site busy_site) tt))
  = Some
      (Return
         [{| domain := "https://example1.com"; productUrls := [] |};
          {| domain := "https://example2.com"; productUrls := [] |};
          {| domain := "https://example3.com"; productUrls := [] |}],
       [EvAdd "https://example1.com"; EvGet "https://example1.com";
        EvAdd "https://example2.com"; EvGet "https://example2.com";
        EvDelay 3000; EvGet "https://example2.com"; EvDelay 3000;
        EvDelay 3000; EvGet "https://example1.com"; EvDelay 3000;
        EvAdd "https://example3.com"; EvGet "https://example3.com";
        EvDelay 3000; EvGet "https://example3.com"; EvDelay 3000],
       [Started "https://example1.com"; Started "https://example2.com";
        Ended "https://example2.com"; Ended "https://example1.com";
        Started "https://example3.com"; Ended "https://example3.com"]).
Proof. vm_compute. reflexivity. Qed.
